(** * A shallow embedding of [capture_ddp.py] (ll-sacn-recorder, v2.0.0)

    The program is a single receive loop in [main]; its local variables form
    the [session] record below.  One loop iteration is one [event]: either
    [sock.recvfrom] returns a datagram, or it raises [socket.timeout].  The
    step function returns how the iteration ends: the loop goes on
    ([Continue]), [main] returns ([Exit]), or an exception escapes [main]
    ([Crash]; only [KeyboardInterrupt] is caught, and it is not modelled).

    Modelling choices:
    - Python integers are [Z]; bytes are [Byte.byte]; a [bytes] or
      [bytearray] is a [list byte].
    - The dictionaries [strings_ranges], [buffers] and [filled_count] are
      association lists in insertion order (Python dicts keep it); [set] is
      dict assignment (update in place, or append a new key).
    - Clock values are integer microseconds (the resolution of [datetime]).
      Every [datetime.now()] call made while handling one event reads the
      event's time [now].  The frame timestamp of line 214 is computed in
      IEEE 754 binary64, as the code does it ([py_time_ms]); the other
      float expressions are only compared, and are compared as integers
      where the comparison is exact (see [duration_reached], [emit_frame]
      and [on_timeout]).
    - The output file is the list of operations on it: [Create bs] for the
      [open(..., "wb")] of line 150 (which creates or empties the file)
      followed by the write of [bs], [Append bs] for an [open(..., "ab")]
      frame write.  Those writes happen before any later exception, so a
      [Crash] still carries the file operations done so far. *)

From Stdlib Require Import ZArith List Lia Bool.
From Stdlib Require Import Strings.Byte Sorting.Sorted Floats.SpecFloat.
Import ListNotations.
Open Scope Z_scope.

(** ** Python helpers *)

Definition byte_val (b : byte) : Z := Z.of_N (Byte.to_N b).

Definition byte_of_Z (v : Z) : byte :=
  match Byte.of_N (Z.to_N (v mod 256)) with Some b => b | None => x00 end.

(** [len(x)] *)
Definition len {A} (l : list A) : Z := Z.of_nat (length l).

(** [struct.unpack(">I" / ">H", ...)[0]]: most significant byte first. *)
Definition be_uint (l : list byte) : Z :=
  fold_left (fun acc b => acc * 256 + byte_val b) l 0.

(** [v.to_bytes(n, byteorder="little")]; [None] is [OverflowError]
    (raised for a negative [v] and for [v >= 256 ^ n]). *)
Fixpoint le_digits (n : nat) (v : Z) : list byte :=
  match n with
  | O => []
  | S n' => byte_of_Z v :: le_digits n' (v / 256)
  end.

Definition to_bytes_le (n : nat) (v : Z) : option (list byte) :=
  if (0 <=? v) && (v <? 256 ^ Z.of_nat n) then Some (le_digits n v) else None.

(** [l[i:j]] for non-negative [i] and [j] (the only indices used). *)
Definition py_slice {A} (l : list A) (i j : Z) : list A :=
  firstn (Z.to_nat (j - i)) (skipn (Z.to_nat i) l).

(** [b[i:j] = p] for non-negative [i] and [j]: both bounds are clamped to
    [len(b)], and [j] to at least [i]. *)
Definition py_slice_assign {A} (b : list A) (i j : Z) (p : list A) : list A :=
  let i' := Z.min i (len b) in
  let j' := Z.max i' (Z.min j (len b)) in
  firstn (Z.to_nat i') b ++ p ++ skipn (Z.to_nat j') b.

(** Dictionaries with integer keys. *)
Fixpoint lookup {A} (k : Z) (m : list (Z * A)) : option A :=
  match m with
  | [] => None
  | (k', v) :: m' => if Z.eqb k k' then Some v else lookup k m'
  end.

Fixpoint set {A} (k : Z) (v : A) (m : list (Z * A)) : list (Z * A) :=
  match m with
  | [] => [(k, v)]
  | (k', v') :: m' => if Z.eqb k k' then (k, v) :: m' else (k', v') :: set k v m'
  end.

(** [m.get(k, d)] *)
Definition get {A} (k : Z) (m : list (Z * A)) (d : A) : A :=
  match lookup k m with Some v => v | None => d end.

(** [max(xs)]; [None] is the [ValueError] of an empty sequence. *)
Definition py_max (l : list Z) : option Z :=
  match l with
  | [] => None
  | x :: l' => Some (fold_left Z.max l' x)
  end.

(** [bytearray(n)]; [None] is [ValueError: negative count]. *)
Definition bytearray (n : Z) : option (list byte) :=
  if n <? 0 then None else Some (repeat x00 (Z.to_nat n)).

(** [sorted(keys)] on integers. *)
Fixpoint insert_sorted (x : Z) (l : list Z) : list Z :=
  match l with
  | [] => [x]
  | y :: l' => if x <=? y then x :: l else y :: insert_sorted x l'
  end.

Fixpoint sorted_keys (l : list Z) : list Z :=
  match l with
  | [] => []
  | x :: l' => insert_sorted x (sorted_keys l')
  end.

(** [is_empty_bytearray]: [input_data.count(0) == len(input_data)]. *)
Definition is_empty_bytearray (input_data : list byte) : bool :=
  Nat.eqb (count_occ Byte.byte_eq_dec input_data x00) (length input_data).

(** ** Python floats

    A Python [float] is an IEEE 754 binary64 number: [prec = 53],
    [emax = 1024], rounding to nearest, ties to even. *)

(** [float(n)] *)
Definition float_of_int (n : Z) : spec_float := binary_normalize 53 1024 n 0 false.

(** [a / b] on two ints: the exact quotient rounded once (the division
    core takes the integer operands as they are). *)
Definition int_truediv (a : Z) (b : positive) : spec_float :=
  match a with
  | Z0 => S754_zero false
  | Zpos m => SFdiv 53 1024 (S754_finite false m 0) (S754_finite false b 0)
  | Zneg m => SFdiv 53 1024 (S754_finite true m 0) (S754_finite false b 0)
  end.

(** [int(f)]: truncation toward zero; [None] is the [OverflowError] of an
    infinity (or the [ValueError] of a NaN, which no computation here
    produces). *)
Definition py_int (f : spec_float) : option Z :=
  match f with
  | S754_zero _ => Some 0
  | S754_finite s m e =>
      let a := if 0 <=? e then Z.pos m * 2 ^ e else Z.pos m / 2 ^ (- e) in
      Some (if s then - a else a)
  | _ => None
  end.

(** [timedelta(microseconds=us).total_seconds()] is [us / 10**6]. *)
Definition total_seconds (us : Z) : spec_float := int_truediv us 1000000.

(** Line 214: [int(cur_time.total_seconds() * 1_000)], for an elapsed time
    of [us] microseconds. *)
Definition py_time_ms (us : Z) : option Z :=
  py_int (SFmul 53 1024 (total_seconds us) (float_of_int 1000)).

(** ** Program state *)

Inductive exn := ValueError | OverflowError | ZeroDivisionError | KeyError | NameError.

Inductive sink_op := Create (bs : list byte) | Append (bs : list byte).

(** The parsed command line ([check_positive_int] makes both numbers
    positive). *)
Record config := mk_config {
  number_of_strings : Z;
  seconds_to_capture : option Z
}.

Definition CHANNELS_PER_PIXEL : Z := 3.

(** The local variables of [main].  [start_time] is [None] while the
    Python name is unbound; [frames_written] is bound at discovery
    finalisation and only read afterwards. *)
Record session := mk_session {
  strings_ranges : list (Z * (Z * Z));
  next_assigned : Z;
  packets_seen : Z;
  start : Z;
  is_beginning : bool;
  empty_frames : Z;
  collecting : bool;
  buffers : list (Z * list byte);
  filled_count : list (Z * Z);
  max_bytes : option Z;
  last_frame_time : option Z;
  start_time : option Z;
  frames_written : Z;
  output : list sink_op
}.

Definition init_session : session :=
  {| strings_ranges := []; next_assigned := 1; packets_seen := 0; start := 0;
     is_beginning := true; empty_frames := 0; collecting := false;
     buffers := []; filled_count := []; max_bytes := None;
     last_frame_time := None; start_time := None; frames_written := 0;
     output := [] |}.

Inductive event :=
| Recv (now : Z) (data : list byte)
| RecvTimeout (now : Z).

Inductive outcome :=
| Continue (st : session)
| Exit (out : list sink_op)
| Crash (e : exn) (out : list sink_op).

(** A sub-computation that may raise. *)
Inductive result (A : Type) :=
| Ok (a : A)
| Raise (e : exn) (out : list sink_op).
Arguments Ok {A} a.
Arguments Raise {A} e out.

(** ** Range learning (lines 127-136) *)

(** A push packet seen while [not collecting]: a new running string number
    gets the range [(start, offset + length)], and the cursor moves. *)
Definition learn_range (st : session) (offset length : Z) : session :=
  let end_ := offset + length in
  let assigned := next_assigned st in
  {| strings_ranges := set assigned (start st, end_) (strings_ranges st);
     next_assigned := assigned + 1;
     packets_seen := packets_seen st;
     start := end_;
     is_beginning := is_beginning st; empty_frames := empty_frames st;
     collecting := collecting st; buffers := buffers st;
     filled_count := filled_count st; max_bytes := max_bytes st;
     last_frame_time := last_frame_time st; start_time := start_time st;
     frames_written := frames_written st; output := output st |}.

(** ** Discovery finalisation (lines 139-166) *)

(** [for string_num, (s, e) in strings_ranges.items(): buffers[string_num]
    = bytearray(e - s); filled_count[string_num] = 0]; [None] is the
    [ValueError] of a negative [e - s]. *)
Fixpoint alloc_buffers (rs : list (Z * (Z * Z))) (bufs : list (Z * list byte))
  (fc : list (Z * Z)) : option (list (Z * list byte) * list (Z * Z)) :=
  match rs with
  | [] => Some (bufs, fc)
  | (string_num, (s, e)) :: rs' =>
      match bytearray (e - s) with
      | None => None
      | Some b => alloc_buffers rs' (set string_num b bufs) (set string_num 0 fc)
      end
  end.

Definition range_lengths (rs : list (Z * (Z * Z))) : list Z :=
  map (fun '(_, (s, e)) => e - s) rs.

(** Lines 161-162 recompute [max_string_len] and [max_pixels] from the
    same, unchanged ranges; the value is the one computed at line 146.
    When [max_pixels.to_bytes(2, ...)] raises (line 151), the
    [open(args.output, "wb")] of line 150 has already created or emptied
    the file: [Create []]. *)
Definition finalize (st : session) : result session :=
  match py_max (range_lengths (strings_ranges st)) with
  | None => Raise ValueError (output st)
  | Some max_string_len =>
      let max_pixels := max_string_len / CHANNELS_PER_PIXEL in
      match to_bytes_le 2 max_pixels with
      | None => Raise OverflowError (output st ++ [Create []])
      | Some header =>
          let out := output st ++ [Create header] in
          match alloc_buffers (strings_ranges st) (buffers st) (filled_count st) with
          | None => Raise ValueError out
          | Some (bufs, fc) =>
              Ok {| strings_ranges := strings_ranges st;
                    next_assigned := next_assigned st;
                    packets_seen := packets_seen st; start := start st;
                    is_beginning := is_beginning st;
                    empty_frames := empty_frames st;
                    collecting := true; buffers := bufs; filled_count := fc;
                    max_bytes := Some (max_pixels * CHANNELS_PER_PIXEL);
                    last_frame_time := last_frame_time st;
                    start_time := start_time st;
                    frames_written := 0; output := out |}
          end
      end
  end.

(** ** Leading empty packets (lines 169-178) *)

Definition count_empty (st : session) : session :=
  {| strings_ranges := strings_ranges st; next_assigned := next_assigned st;
     packets_seen := packets_seen st; start := start st;
     is_beginning := is_beginning st; empty_frames := empty_frames st + 1;
     collecting := collecting st; buffers := buffers st;
     filled_count := filled_count st; max_bytes := max_bytes st;
     last_frame_time := last_frame_time st; start_time := start_time st;
     frames_written := frames_written st; output := output st |}.

Definition begin_capture (st : session) (now : Z) : session :=
  {| strings_ranges := strings_ranges st; next_assigned := next_assigned st;
     packets_seen := packets_seen st; start := start st;
     is_beginning := false; empty_frames := empty_frames st;
     collecting := collecting st; buffers := buffers st;
     filled_count := filled_count st; max_bytes := max_bytes st;
     last_frame_time := Some now; start_time := Some now;
     frames_written := frames_written st; output := output st |}.

(** ** Frame assembly (lines 181-242) *)

(** The [for ... break] over [strings_ranges.items()]. *)
Fixpoint find_range (offset length : Z) (rs : list (Z * (Z * Z)))
  : option (Z * (Z * Z)) :=
  match rs with
  | [] => None
  | (string_num, (s, e)) :: rs' =>
      if (s <=? offset) && (offset + length <=? e) then Some (string_num, (s, e))
      else find_range offset length rs'
  end.

(** [Ok None]: the packet fits no range ([written] stays [False]). *)
Definition write_payload (st : session) (offset length : Z) (payload : list byte)
  : result (option session) :=
  match find_range offset length (strings_ranges st) with
  | None => Ok None
  | Some (string_num, (s, e)) =>
      let rel_off := offset - s in
      match lookup string_num (buffers st) with
      | None => Raise KeyError (output st)
      | Some b =>
          match lookup string_num (filled_count st) with
          | None => Raise KeyError (output st)
          | Some f =>
              Ok (Some
                {| strings_ranges := strings_ranges st;
                   next_assigned := next_assigned st;
                   packets_seen := packets_seen st; start := start st;
                   is_beginning := is_beginning st;
                   empty_frames := empty_frames st; collecting := collecting st;
                   buffers := set string_num
                                (py_slice_assign b rel_off (rel_off + length) payload)
                                (buffers st);
                   filled_count := set string_num (f + length) (filled_count st);
                   max_bytes := max_bytes st;
                   last_frame_time := last_frame_time st;
                   start_time := start_time st;
                   frames_written := frames_written st; output := output st |})
          end
      end
  end.

(** [all(filled_count.get(n, 0) == len(buffers[n]) for n in buffers)];
    [None] would be a [KeyError]. *)
Fixpoint all_full_check (ns : list Z) (bufs : list (Z * list byte))
  (fc : list (Z * Z)) : option bool :=
  match ns with
  | [] => Some true
  | n :: ns' =>
      match lookup n bufs with
      | None => None
      | Some b =>
          if Z.eqb (get n fc 0) (len b) then all_full_check ns' bufs fc
          else Some false
      end
  end.

(** One frame part (lines 202-208): unchanged without [max_bytes];
    zero-padded on the right when shorter; truncated otherwise.
    [max_bytes] is never negative: it is [3 * max_pixels] and a negative
    [max_pixels] already failed [to_bytes]. *)
Definition fit (max_bytes : option Z) (b : list byte) : list byte :=
  match max_bytes with
  | None => b
  | Some mb =>
      if len b <? mb then b ++ repeat x00 (Z.to_nat (mb - len b))
      else firstn (Z.to_nat mb) b
  end.

Fixpoint frame_parts (mb : option Z) (ns : list Z) (bufs : list (Z * list byte))
  : option (list (list byte)) :=
  match ns with
  | [] => Some []
  | n :: ns' =>
      match lookup n bufs with
      | None => None
      | Some b =>
          match frame_parts mb ns' bufs with
          | None => None
          | Some ps => Some (fit mb b :: ps)
          end
      end
  end.

(** Lines 239-242. *)
Definition zero_buffers (bufs : list (Z * list byte)) : list (Z * list byte) :=
  map (fun '(n, b) => (n, repeat x00 (length b))) bufs.

Definition zero_counts (ns : list Z) (fc : list (Z * Z)) : list (Z * Z) :=
  fold_left (fun fc n => set n 0 fc) ns fc.

(** [if args.seconds_to_capture: ... if elapsed_time_s >= ...].  Python
    compares the float [elapsed_time_s] with the int exactly, and rounding
    [us / 10**6] to the nearest float crosses no integer [secs] for elapsed
    times below 2^53 microseconds (285 years), so the test is the integer
    one. *)
Definition duration_reached (cfg : config) (t0 now : Z) : bool :=
  match seconds_to_capture cfg with
  | None => false
  | Some secs => negb (secs =? 0) && (secs * 1000000 <=? now - t0)
  end.

(** Lines 198-242, once [all_full] holds.  [time_ms] is [int()] of a
    binary64 product ([py_time_ms]).  The divisions by [elapsed_time_ms]
    (lines 228 and 234) raise [ZeroDivisionError] when that float is
    [0.0], which happens exactly when no microsecond has elapsed since
    [start_time] (a non-zero [us / 10**6] is at least [1e-6] in magnitude, a
    normal float, and stays non-zero when multiplied by [1000]). *)
Definition emit_frame (cfg : config) (st : session) (now : Z) : outcome :=
  match frame_parts (max_bytes st) (sorted_keys (map fst (buffers st))) (buffers st) with
  | None => Crash KeyError (output st)
  | Some parts =>
      let frame_data := concat parts in
      match start_time st with
      | None => Crash NameError (output st)
      | Some t0 =>
          match py_time_ms (now - t0) with
          | None => Crash OverflowError (output st)
          | Some time_ms =>
          match to_bytes_le 4 time_ms with
          | None => Crash OverflowError (output st)
          | Some time_header =>
              let out := output st ++ [Append (time_header ++ frame_data)] in
              let frames := frames_written st + 1 in
              if (frames mod 40 =? 0) && (now - t0 =? 0) then Crash ZeroDivisionError out
              else if duration_reached cfg t0 now then
                (if now - t0 =? 0 then Crash ZeroDivisionError out else Exit out)
              else
                Continue
                  {| strings_ranges := strings_ranges st;
                     next_assigned := next_assigned st;
                     packets_seen := packets_seen st; start := start st;
                     is_beginning := is_beginning st;
                     empty_frames := empty_frames st; collecting := collecting st;
                     buffers := zero_buffers (buffers st);
                     filled_count := zero_counts (map fst (buffers st)) (filled_count st);
                     max_bytes := max_bytes st;
                     last_frame_time := Some now; start_time := start_time st;
                     frames_written := frames; output := out |}
          end
          end
      end
  end.

Definition capture (cfg : config) (st : session) (now offset length : Z)
  (payload : list byte) : outcome :=
  match write_payload st offset length payload with
  | Raise e out => Crash e out
  | Ok None => Continue st
  | Ok (Some st') =>
      match all_full_check (map fst (buffers st')) (buffers st') (filled_count st') with
      | None => Crash KeyError (output st')
      | Some false => Continue st'
      | Some true => emit_frame cfg st' now
      end
  end.

(** ** One loop iteration *)

Definition incr_packets_seen (st : session) : session :=
  {| strings_ranges := strings_ranges st; next_assigned := next_assigned st;
     packets_seen := packets_seen st + 1; start := start st;
     is_beginning := is_beginning st; empty_frames := empty_frames st;
     collecting := collecting st; buffers := buffers st;
     filled_count := filled_count st; max_bytes := max_bytes st;
     last_frame_time := last_frame_time st; start_time := start_time st;
     frames_written := frames_written st; output := output st |}.

(** Lines 169-242, after discovery. *)
Definition skip_or_capture (cfg : config) (st : session) (now offset length : Z)
  (payload : list byte) : outcome :=
  if is_beginning st && is_empty_bytearray payload then Continue (count_empty st)
  else
    let st := if is_beginning st then begin_capture st now else st in
    if collecting st then capture cfg st now offset length payload else Continue st.

(** Lines 127-166: range learning and the discovery check. *)
Definition discover (cfg : config) (st : session) (flags1 : byte) (offset length : Z)
  : result session :=
  let push_flag := negb (Z.land (byte_val flags1) 1 =? 0) in
  let st := if negb (collecting st) && push_flag then learn_range st offset length else st in
  if negb (collecting st) && (number_of_strings cfg <=? len (strings_ranges st))
  then finalize st
  else Ok st.

(** Lines 125-242, for a decoded packet. *)
Definition handle_packet (cfg : config) (st : session) (now : Z) (flags1 : byte)
  (offset length : Z) (payload : list byte) : outcome :=
  match discover cfg st flags1 offset length with
  | Raise e out => Crash e out
  | Ok st => skip_or_capture cfg st now offset length payload
  end.

(** Lines 77-123: header decoding, then the packet. *)
Definition step_recv (cfg : config) (st : session) (now : Z) (data : list byte) : outcome :=
  if len data <? 10 then Continue st
  else
    let flags1 := nth 0 data x00 in
    let offset := be_uint (py_slice data 4 8) in
    let length := be_uint (py_slice data 8 10) in
    let has_timecode := negb (Z.land (byte_val flags1) 16 =? 0) in
    match (if has_timecode then (if 14 <=? len data then Some 14 else None) else Some 10) with
    | None => Continue st
    | Some pos =>
        let st := incr_packets_seen st in
        let payload := py_slice data pos (pos + length) in
        if negb (len payload =? length) then Continue st
        else handle_packet cfg st now flags1 offset length payload
    end.

(** Lines 62-75: [recvfrom] timed out.  [time_since_last_frame >= 5.0]
    is [now - lft >= 5000000] (no float strictly between the roundings of
    [4.999999] and [5.0]), and [elapsed_time_ms] is [0.0] exactly when
    [lft = t0], as in [emit_frame]. *)
Definition on_timeout (st : session) (now : Z) : outcome :=
  if collecting st && negb (is_beginning st) then
    match last_frame_time st with
    | None => Continue st
    | Some lft =>
        if 5000000 <=? now - lft then
          match start_time st with
          | None => Crash NameError (output st)
          | Some t0 =>
              if (0 <? frames_written st) && (lft - t0 =? 0)
              then Crash ZeroDivisionError (output st)
              else Exit (output st)
          end
        else Continue st
    end
  else Continue st.

Definition step (cfg : config) (st : session) (ev : event) : outcome :=
  match ev with
  | Recv now data => step_recv cfg st now data
  | RecvTimeout now => on_timeout st now
  end.

Fixpoint run (cfg : config) (st : session) (evs : list event) : outcome :=
  match evs with
  | [] => Continue st
  | ev :: evs' =>
      match step cfg st ev with
      | Continue st' => run cfg st' evs'
      | o => o
      end
  end.

Inductive reachable (cfg : config) : session -> Prop :=
| reach_init : reachable cfg init_session
| reach_step st ev st' :
    reachable cfg st -> step cfg st ev = Continue st' -> reachable cfg st'.

(** The output operations of an outcome. *)
Definition outcome_output (o : outcome) : list sink_op :=
  match o with
  | Continue st => output st
  | Exit out => out
  | Crash _ out => out
  end.

(** ** Concrete datagrams *)

(** A DDP datagram without timecode: flags, offset, length and payload. *)
Definition ddp (flags1 : byte) (offset length : Z) (payload : list byte) : list byte :=
  [flags1; x00; x01; x01] ++ rev (le_digits 4 offset) ++ rev (le_digits 2 length) ++ payload.

Definition cfg1 : config := mk_config 1 None.
Definition cfg2 : config := mk_config 2 None.

(** ** Concrete runs *)

(** [n] pixel bytes of value 7. *)
Definition px (n : nat) : list byte := repeat x07 n.

(** The session after [evs], when the run goes on to its end. *)
Definition session_after (cfg : config) (evs : list event) : session :=
  match run cfg init_session evs with
  | Continue st => st
  | _ => init_session
  end.

(** Two strings learned from push packets ending at 15 and 45. *)
Definition scenario_b : list event :=
  [Recv 0 (ddp x41 0 15 (px 15)); Recv 1 (ddp x41 15 30 (px 30))].

(** One string [(0, 6)]; its bytes [2..5] arrive twice in one frame. *)
Definition overlap_run : list event :=
  [Recv 0 (ddp x41 2 4 (px 4)); Recv 1 (ddp x40 2 4 (px 4))].

(** Scenario A, with an all-zero push packet so that no frame is
    captured yet. *)
Definition scenario_a_discovery : list event := [Recv 0 (ddp x41 0 30 (repeat x00 30))].

(** Pixel data for bytes [3..5] of a single string [(0, 6)], then a
    timeout five seconds later. *)
Definition partial_then_idle : list event :=
  [Recv 0 (ddp x41 3 3 (px 3)); RecvTimeout 5000000].

(** Two strings: a push packet with pixel data for [(0, 3)], then an
    all-zero push packet for [(3, 6)]. *)
Definition nonzero_during_discovery : list event :=
  [Recv 0 (ddp x41 0 3 (px 3)); Recv 7 (ddp x41 3 3 (repeat x00 3))].

(** The single string [(0, 6)] holding bytes [3..5] (see
    [partial_then_idle]). *)
Definition half_frame : session := session_after cfg1 [Recv 0 (ddp x41 3 3 (px 3))].



(** * Specification predicates *)

(** Two dictionaries with the same keys in the same order, related
    value by value. *)
Definition keyed {A B} (P : A -> B -> Prop) (x : Z * A) (y : Z * B) : Prop :=
  fst x = fst y /\ P (snd x) (snd y).

(** Consecutive integers [a, a + 1, ..., a + n - 1]. *)
Fixpoint zseq (a : Z) (n : nat) : list Z :=
  match n with
  | O => []
  | S n' => a :: zseq (a + 1) n'
  end.

(** Range [r] holds the whole packet [[offset, offset + length)]. *)
Definition fits (offset length : Z) (r : Z * (Z * Z)) : Prop :=
  fst (snd r) <= offset /\ offset + length <= snd (snd r).

(** The value relations of the session invariant. *)
Definition buf_ok (r : Z * Z) (b : list byte) : Prop := len b = snd r - fst r.
Definition count_ok (r : Z * Z) (f : Z) : Prop := 0 <= f.

(** ** Contiguous ranges *)

(** [chain rs a t]: the ranges start at [a], each one starts where the
    previous one ends, and the last one ends at [t]. *)
Inductive chain : list (Z * (Z * Z)) -> Z -> Z -> Prop :=
| chain_nil a : chain [] a a
| chain_cons n a b rs t : chain rs b t -> chain ((n, (a, b)) :: rs) a t.

Definition is_append (op : sink_op) : Prop :=
  match op with Append _ => True | Create _ => False end.

(** ** The session invariant *)

Record inv (cfg : config) (st : session) : Prop := {
  inv_keys : map fst (strings_ranges st) = zseq 1 (length (strings_ranges st));
  inv_next : next_assigned st = 1 + len (strings_ranges st);
  inv_chain : chain (strings_ranges st) 0 (start st);
  inv_disc : collecting st = false ->
    buffers st = [] /\ filled_count st = [] /\ output st = [] /\
    len (strings_ranges st) < number_of_strings cfg;
  inv_coll : collecting st = true ->
    len (strings_ranges st) = number_of_strings cfg /\
    Forall2 (keyed buf_ok) (strings_ranges st) (buffers st) /\
    Forall2 (keyed count_ok) (strings_ranges st) (filled_count st) /\
    (exists mb, max_bytes st = Some mb /\ 0 <= mb) /\
    (exists hdr rest, output st = Create hdr :: rest /\ Forall is_append rest);
  inv_begin : is_beginning st = false ->
    (exists t0, start_time st = Some t0) /\ (exists lft, last_frame_time st = Some lft)
}.

(** The discovery-phase shape of a session, with at most [S] ranges. *)
Definition disc_shape (cfg : config) (st : session) : Prop :=
  map fst (strings_ranges st) = zseq 1 (length (strings_ranges st)) /\
  next_assigned st = 1 + len (strings_ranges st) /\
  chain (strings_ranges st) 0 (start st) /\
  collecting st = false /\ buffers st = [] /\ filled_count st = [] /\ output st = [] /\
  len (strings_ranges st) <= number_of_strings cfg /\
  (is_beginning st = false ->
    (exists t0, start_time st = Some t0) /\ (exists lft, last_frame_time st = Some lft)).

(** String [n]'s fill count has passed the length of its buffer. *)
Definition overfilled (n : Z) (st : session) : Prop :=
  exists f b, lookup n (filled_count st) = Some f /\ lookup n (buffers st) = Some b /\ len b < f.

(** The number of ranges [(s, e)] with [s <= x < e]. *)
Definition covers (rs : list (Z * (Z * Z))) (x : Z) : nat :=
  length (filter (fun r => (fst (snd r) <=? x) && (x <? snd (snd r))) rs).

(** [rs] partitions [[a, t)]: every point inside lies in exactly one
    range, every point outside in none. *)
Definition partitions (rs : list (Z * (Z * Z))) (a t : Z) : Prop :=
  forall x, covers rs x = if (a <=? x) && (x <? t) then 1%nat else 0%nat.

(** ** The output file *)

(** [int.from_bytes(bs, "little")]: how a reader of the file decodes the
    header and the time stamps. *)
Definition le_value (bs : list byte) : Z :=
  fold_right (fun b acc => byte_val b + 256 * acc) 0 bs.

(** A well-formed output: the 2-byte header holding [max_pixels], then
    frame records of [4 + S * max_bytes] bytes each, where [max_pixels] is
    [ml / 3] for the maximal range length [ml] and
    [max_bytes = max_pixels * 3]. *)
Definition file_layout (cfg : config) (ml : Z) (out : list sink_op) : Prop :=
  exists hdr recs,
    out = Create hdr :: map Append recs /\
    len hdr = 2 /\ le_value hdr = ml / CHANNELS_PER_PIXEL /\
    Forall (fun r => len r = 4 + number_of_strings cfg * (ml / CHANNELS_PER_PIXEL * CHANNELS_PER_PIXEL))
      recs.

(** Nothing written yet, a file emptied by [open(..., "wb")] whose header
    write raised, or a well-formed file. *)
Definition output_well_formed (cfg : config) (out : list sink_op) : Prop :=
  out = [] \/ out = [Create []] \/ exists ml, file_layout cfg ml out.

(** The output of a capturing session, tied to its ranges, [max_bytes]
    and frame counter. *)
Definition file_ok (cfg : config) (st : session) : Prop :=
  collecting st = true ->
  exists ml hdr recs,
    py_max (range_lengths (strings_ranges st)) = Some ml /\
    max_bytes st = Some (ml / CHANNELS_PER_PIXEL * CHANNELS_PER_PIXEL) /\
    output st = Create hdr :: map Append recs /\
    len hdr = 2 /\ le_value hdr = ml / CHANNELS_PER_PIXEL /\
    Forall (fun r => len r = 4 + number_of_strings cfg * (ml / CHANNELS_PER_PIXEL * CHANNELS_PER_PIXEL))
      recs /\
    frames_written st = len recs.

(** ** Counting datagrams *)

(** The datagrams that get past the checks of lines 78 and 94-100, the
    ones that reach [packets_seen += 1] (line 102). *)
Definition header_ok (data : list byte) : bool :=
  (10 <=? len data) &&
  (if negb (Z.land (byte_val (nth 0 data x00)) 16 =? 0) then 14 <=? len data else true).

Fixpoint headers_passed (evs : list event) : Z :=
  match evs with
  | [] => 0
  | Recv _ data :: evs' => (if header_ok data then 1 else 0) + headers_passed evs'
  | RecvTimeout _ :: evs' => headers_passed evs'
  end.

(** * Lemmas about the helpers *)

Create HintDb ddp.

Lemma len_app {A} (l1 l2 : list A) : len (l1 ++ l2) = len l1 + len l2.
Proof. unfold len. rewrite length_app. lia. Qed.

Lemma len_nonneg {A} (l : list A) : 0 <= len l.
Proof. unfold len. lia. Qed.
#[local] Hint Resolve len_nonneg : ddp.

Lemma len_one {A} (x : A) : len [x] = 1.
Proof. reflexivity. Qed.

Lemma len_repeat {A} (x : A) n : len (repeat x n) = Z.of_nat n.
Proof. unfold len. now rewrite repeat_length. Qed.

Lemma lookup_set_eq {A} k (v : A) m : lookup k (set k v m) = Some v.
Proof.
  induction m as [|[k' v'] m IH]; simpl.
  - now rewrite Z.eqb_refl.
  - destruct (Z.eqb_spec k k'); simpl.
    + now rewrite Z.eqb_refl.
    + destruct (Z.eqb_spec k k'); [contradiction|exact IH].
Qed.

Lemma lookup_set_neq {A} k k0 (v : A) m : k0 <> k -> lookup k0 (set k v m) = lookup k0 m.
Proof.
  intros Hne. induction m as [|[k' v'] m IH]; simpl.
  - destruct (Z.eqb_spec k0 k); [contradiction|reflexivity].
  - destruct (Z.eqb_spec k k'); simpl.
    + subst. destruct (Z.eqb_spec k0 k'); [contradiction|reflexivity].
    + destruct (Z.eqb_spec k0 k'); [reflexivity|exact IH].
Qed.

Lemma keys_set_present {A} k (v : A) m : In k (map fst m) -> map fst (set k v m) = map fst m.
Proof.
  induction m as [|[k' v'] m IH]; simpl; [tauto|].
  intros Hin. destruct (Z.eqb_spec k k'); simpl.
  - now subst.
  - f_equal. apply IH. destruct Hin; [congruence|assumption].
Qed.

Lemma set_fresh {A} k (v : A) m : ~ In k (map fst m) -> set k v m = m ++ [(k, v)].
Proof.
  induction m as [|[k' v'] m IH]; simpl; [reflexivity|].
  intros Hin. destruct (Z.eqb_spec k k').
  - subst. tauto.
  - f_equal. apply IH. tauto.
Qed.

Lemma lookup_In_keys {A} k (m : list (Z * A)) :
  In k (map fst m) -> exists v, lookup k m = Some v.
Proof.
  induction m as [|[k' v'] m IH]; simpl; [tauto|].
  intros Hin. destruct (Z.eqb_spec k k'); [eauto|].
  apply IH. destruct Hin; [congruence|assumption].
Qed.

Lemma lookup_keys_In {A} k (m : list (Z * A)) v :
  lookup k m = Some v -> In k (map fst m).
Proof.
  induction m as [|[k' v'] m IH]; simpl; [discriminate|].
  destruct (Z.eqb_spec k k'); [auto|intros H; right; auto].
Qed.

Lemma lookup_In {A} k (m : list (Z * A)) v : lookup k m = Some v -> In (k, v) m.
Proof.
  induction m as [|[k' v'] m IH]; simpl; [discriminate|].
  destruct (Z.eqb_spec k k'); [intros H; inversion H; subst; auto|intros H; right; auto].
Qed.

Lemma lookup_NoDup_In {A} k (m : list (Z * A)) v :
  NoDup (map fst m) -> In (k, v) m -> lookup k m = Some v.
Proof.
  induction m as [|[k' v'] m IH]; simpl; [tauto|].
  intros Hnd Hin. inversion Hnd as [|? ? Hnotin Hnd']; subst.
  destruct Hin as [Heq|Hin].
  - inversion Heq; subst. now rewrite Z.eqb_refl.
  - destruct (Z.eqb_spec k k').
    + subst. exfalso. apply Hnotin. apply (in_map fst) in Hin. exact Hin.
    + auto.
Qed.

Lemma keyed_keys {A B} (P : A -> B -> Prop) xs ys :
  Forall2 (keyed P) xs ys -> map fst xs = map fst ys.
Proof. induction 1 as [|x y xs ys [Hk _] _ IH]; simpl; congruence. Qed.

Lemma keyed_lookup {A B} (P : A -> B -> Prop) xs ys k a :
  Forall2 (keyed P) xs ys -> lookup k xs = Some a ->
  exists b, lookup k ys = Some b /\ P a b.
Proof.
  induction 1 as [|[kx vx] [ky vy] xs ys [Hk HP] _ IH]; simpl in *; [discriminate|].
  subst ky. destruct (Z.eqb_spec k kx).
  - intros H. inversion H; subst. eauto.
  - exact IH.
Qed.

Lemma keyed_set {A B} (P : A -> B -> Prop) xs ys k a b :
  Forall2 (keyed P) xs ys -> lookup k xs = Some a -> P a b ->
  Forall2 (keyed P) xs (set k b ys).
Proof.
  induction 1 as [|[kx vx] [ky vy] xs ys [Hk HP] Hrest IH]; simpl in *; [discriminate|].
  subst ky. destruct (Z.eqb_spec k kx).
  - intros H Hb. inversion H; subst. constructor; [split; auto|exact Hrest].
  - intros H Hb. constructor; [split; auto|auto].
Qed.

Lemma keyed_app {A B} (P : A -> B -> Prop) xs ys xs' ys' :
  Forall2 (keyed P) xs ys -> Forall2 (keyed P) xs' ys' ->
  Forall2 (keyed P) (xs ++ xs') (ys ++ ys').
Proof. intros H1 H2. induction H1; simpl; auto. Qed.

Lemma zseq_In a n x : In x (zseq a n) <-> a <= x < a + Z.of_nat n.
Proof.
  revert a. induction n as [|n IH]; intros a; simpl; [lia|].
  rewrite IH. lia.
Qed.

Lemma zseq_NoDup a n : NoDup (zseq a n).
Proof.
  revert a. induction n as [|n IH]; intros a; simpl; constructor; auto.
  rewrite zseq_In. lia.
Qed.

Lemma zseq_snoc a n : zseq a (S n) = zseq a n ++ [a + Z.of_nat n].
Proof.
  revert a. induction n as [|n IH]; intros a.
  - simpl. f_equal. f_equal. lia.
  - change (zseq a (S (S n))) with (a :: zseq (a + 1) (S n)).
    rewrite IH. simpl. do 3 f_equal. lia.
Qed.

Lemma zseq_sorted a n : Sorted Z.lt (zseq a n).
Proof.
  revert a. induction n as [|n IH]; intros a; simpl; constructor; auto.
  destruct n; simpl; constructor. lia.
Qed.

Lemma find_range_Some offset length rs r :
  find_range offset length rs = Some r ->
  exists pre post, rs = pre ++ r :: post /\
    Forall (fun r' => ~ fits offset length r') pre /\ fits offset length r.
Proof.
  induction rs as [|[n [s e]] rs IH]; simpl; [discriminate|].
  destruct ((s <=? offset) && (offset + length <=? e)) eqn:Hf.
  - intros H. inversion H; subst. exists [], rs. apply andb_true_iff in Hf.
    rewrite Z.leb_le, Z.leb_le in Hf. unfold fits; simpl. auto.
  - intros H. destruct (IH H) as (pre & post & -> & Hpre & Hfit).
    exists ((n, (s, e)) :: pre), post. split; [reflexivity|]. split; [|exact Hfit].
    constructor; [|exact Hpre]. unfold fits; simpl.
    apply andb_false_iff in Hf. rewrite !Z.leb_gt in Hf. lia.
Qed.

Lemma find_range_None offset length rs :
  find_range offset length rs = None <-> Forall (fun r => ~ fits offset length r) rs.
Proof.
  induction rs as [|[n [s e]] rs IH]; simpl.
  - split; auto.
  - destruct ((s <=? offset) && (offset + length <=? e)) eqn:Hf.
    + split; [discriminate|]. intros H. inversion H as [|? ? Hn _]; subst.
      exfalso. apply Hn. apply andb_true_iff in Hf. rewrite !Z.leb_le in Hf.
      unfold fits; simpl; lia.
    + rewrite IH. split.
      * intros H. constructor; [|exact H]. unfold fits; simpl.
        apply andb_false_iff in Hf. rewrite !Z.leb_gt in Hf. lia.
      * intros H. inversion H; assumption.
Qed.

Lemma py_slice_assign_inside {A} (b p : list A) i :
  0 <= i -> i + len p <= len b ->
  py_slice_assign b i (i + len p) p =
    firstn (Z.to_nat i) b ++ p ++ skipn (Z.to_nat (i + len p)) b.
Proof.
  intros Hi Hj. unfold py_slice_assign.
  pose proof (len_nonneg p).
  rewrite (Z.min_l i) by lia. rewrite (Z.min_l (i + len p)) by lia.
  rewrite Z.max_r by lia. reflexivity.
Qed.

Lemma py_slice_assign_len {A} (b p : list A) i :
  0 <= i -> i + len p <= len b ->
  len (py_slice_assign b i (i + len p) p) = len b.
Proof.
  intros Hi Hj. rewrite py_slice_assign_inside by assumption.
  unfold len in *. rewrite !length_app, length_firstn, length_skipn. lia.
Qed.

Lemma alloc_buffers_None rs bufs fc :
  alloc_buffers rs bufs fc = None <-> Exists (fun r => snd (snd r) - fst (snd r) < 0) rs.
Proof.
  revert bufs fc. induction rs as [|[n [s e]] rs IH]; intros bufs fc; simpl.
  - split; [discriminate|intros H; inversion H].
  - unfold bytearray. destruct (Z.ltb_spec (e - s) 0).
    + split; [intros _; now constructor|reflexivity].
    + rewrite IH. split; [intros H'; now apply Exists_cons_tl|].
      intros H'. inversion H'; subst; [simpl in *; lia|assumption].
Qed.

Lemma alloc_buffers_Some rs bufs fc bufs' fc' :
  NoDup (map fst rs) ->
  (forall k, In k (map fst rs) -> ~ In k (map fst bufs) /\ ~ In k (map fst fc)) ->
  alloc_buffers rs bufs fc = Some (bufs', fc') ->
  exists B, bufs' = bufs ++ B /\ fc' = fc ++ map (fun r => (fst r, 0)) rs /\
    Forall2 (keyed buf_ok) rs B /\ Forall (fun nb => Forall (eq x00) (snd nb)) B.
Proof.
  revert bufs fc. induction rs as [|[n [s e]] rs IH]; intros bufs fc Hnd Hfresh; simpl.
  - intros H. inversion H; subst. exists []. rewrite !app_nil_r. auto.
  - unfold bytearray. destruct (Z.ltb_spec (e - s) 0) as [Hneg|Hnneg]; [discriminate|].
    inversion Hnd as [|? ? Hn Hnd']; subst.
    destruct (Hfresh n (or_introl eq_refl)) as [Hb Hf].
    rewrite (set_fresh n _ bufs Hb), (set_fresh n _ fc Hf).
    intros Ha. apply IH in Ha as (B & -> & -> & HB & Hz); [|exact Hnd'|].
    + exists ((n, repeat x00 (Z.to_nat (e - s))) :: B). rewrite <- !app_assoc.
      repeat split; auto.
      * constructor; [|exact HB]. split; [reflexivity|].
        unfold buf_ok; simpl. rewrite len_repeat. lia.
      * constructor; [|exact Hz]. simpl. apply Forall_forall.
        intros x Hx. apply repeat_spec in Hx. auto.
    + intros k Hk. rewrite !map_app. simpl. destruct (Hfresh k (or_intror Hk)).
      rewrite !in_app_iff. simpl. split; intros [?|[?|?]]; subst; tauto.
Qed.

Lemma all_full_check_true ns bufs fc :
  all_full_check ns bufs fc = Some true ->
  forall n b, In n ns -> lookup n bufs = Some b -> get n fc 0 = len b.
Proof.
  induction ns as [|n0 ns IH]; simpl; [tauto|].
  destruct (lookup n0 bufs) as [b0|] eqn:Hb0; [|discriminate].
  destruct (Z.eqb_spec (get n0 fc 0) (len b0)); [|discriminate].
  intros H n b [<-|Hin] Hb; [congruence|eauto].
Qed.



Lemma keyed_zero_buffers rs bufs :
  Forall2 (keyed buf_ok) rs bufs -> Forall2 (keyed buf_ok) rs (zero_buffers bufs).
Proof.
  induction 1 as [|r [n b] rs bufs [Hk Hb] _ IH]; simpl; constructor; auto.
  split; [exact Hk|]. unfold buf_ok in *. simpl in *. unfold len in *.
  rewrite repeat_length. exact Hb.
Qed.

Lemma keyed_zero_counts rs fc ns :
  Forall2 (keyed count_ok) rs fc -> (forall n, In n ns -> In n (map fst rs)) ->
  Forall2 (keyed count_ok) rs (zero_counts ns fc).
Proof.
  unfold zero_counts. revert fc. induction ns as [|n ns IH]; intros fc Hfc Hns; simpl; [exact Hfc|].
  apply IH; [|intros k Hk; apply Hns; now right].
  destruct (lookup_In_keys n rs (Hns n (or_introl eq_refl))) as [r Hr].
  eapply keyed_set; [exact Hfc|exact Hr|]. unfold count_ok. lia.
Qed.

Lemma chain_snoc rs a t n e : chain rs a t -> chain (rs ++ [(n, (t, e))]) a e.
Proof.
  induction 1; simpl.
  - constructor. constructor.
  - constructor. assumption.
Qed.

Lemma inv_NoDup cfg st : inv cfg st -> NoDup (map fst (strings_ranges st)).
Proof. intros I. rewrite (inv_keys _ _ I). apply zseq_NoDup. Qed.

Lemma inv_init cfg : 0 < number_of_strings cfg -> inv cfg init_session.
Proof.
  intros Hs. constructor; simpl.
  - reflexivity.
  - reflexivity.
  - constructor.
  - intros _. unfold len. simpl. auto.
  - discriminate.
  - discriminate.
Qed.

Lemma inv_incr cfg st : inv cfg st -> inv cfg (incr_packets_seen st).
Proof. intros []. constructor; simpl; auto. Qed.

Lemma inv_count_empty cfg st : inv cfg st -> inv cfg (count_empty st).
Proof. intros []. constructor; simpl; auto. Qed.

Lemma inv_begin_capture cfg st now : inv cfg st -> inv cfg (begin_capture st now).
Proof. intros []. constructor; simpl; eauto. Qed.

Lemma disc_shape_of_inv cfg st : inv cfg st -> collecting st = false -> disc_shape cfg st.
Proof.
  intros [Hk Hn Hch Hd _ Hb] Hc. destruct (Hd Hc) as (H1 & H2 & H3 & H4).
  unfold disc_shape.
  refine (conj Hk (conj Hn (conj Hch (conj Hc (conj H1 (conj H2 (conj H3 (conj _ Hb)))))))).
  lia.
Qed.

Lemma disc_shape_learn cfg st offset length :
  inv cfg st -> collecting st = false -> disc_shape cfg (learn_range st offset length).
Proof.
  intros I Hc. pose proof I as [Hk Hn Hch Hd _ Hb].
  destruct (Hd Hc) as (Hbuf & Hfc & Hout & Hlt).
  assert (Hfresh : ~ In (next_assigned st) (map fst (strings_ranges st))).
  { rewrite Hk, zseq_In, Hn. unfold len. lia. }
  unfold disc_shape, learn_range.
  cbn [strings_ranges next_assigned start collecting buffers filled_count output
       is_beginning start_time last_frame_time].
  rewrite (set_fresh _ _ _ Hfresh).
  refine (conj _ (conj _ (conj _ (conj Hc (conj Hbuf (conj Hfc (conj Hout (conj _ Hb)))))))).
  - rewrite map_app, Hk, length_app. simpl map.
    rewrite Nat.add_1_r, zseq_snoc, Hn. reflexivity.
  - rewrite len_app, len_one, Hn. lia.
  - apply chain_snoc. exact Hch.
  - rewrite len_app, len_one. lia.
Qed.

Lemma inv_of_disc_shape cfg st :
  disc_shape cfg st -> len (strings_ranges st) < number_of_strings cfg -> inv cfg st.
Proof.
  intros (Hk & Hn & Hch & Hc & Hbuf & Hfc & Hout & Hle & Hb) Hlt.
  constructor; auto; congruence.
Qed.

Lemma inv_finalize cfg st st1 :
  disc_shape cfg st -> number_of_strings cfg <= len (strings_ranges st) ->
  finalize st = Ok st1 -> inv cfg st1.
Proof.
  intros (Hk & Hn & Hch & Hc & Hbuf & Hfc & Hout & Hle & Hb) Hge.
  unfold finalize.
  destruct (py_max _) as [m|]; [|discriminate].
  unfold to_bytes_le.
  destruct ((0 <=? m / CHANNELS_PER_PIXEL) && (m / CHANNELS_PER_PIXEL <? 256 ^ Z.of_nat 2)) eqn:Hmp;
    [|discriminate].
  destruct (alloc_buffers _ _ _) as [[bufs fc]|] eqn:Ha; [|discriminate].
  intros H. inversion H; subst st1; clear H.
  rewrite Hbuf, Hfc in Ha.
  apply alloc_buffers_Some in Ha as (B & Hb' & Hf' & HB & _);
    [|rewrite Hk; apply zseq_NoDup|intros; simpl; tauto].
  simpl in Hb', Hf'. subst bufs fc.
  apply andb_true_iff in Hmp as [Hmp _]. apply Z.leb_le in Hmp.
  constructor; simpl; auto; try discriminate.
  intros _. repeat split; [lia|exact HB| |exists (m / CHANNELS_PER_PIXEL * CHANNELS_PER_PIXEL)|].
  - clear. induction (strings_ranges st) as [|r rs IH]; simpl; constructor; auto.
    split; [reflexivity|]. unfold count_ok. simpl. lia.
  - unfold CHANNELS_PER_PIXEL in *. split; [reflexivity|lia].
  - rewrite Hout. simpl. eexists _, []. split; [reflexivity|constructor].
Qed.

Lemma discover_inv cfg st flags1 offset length st1 :
  inv cfg st -> discover cfg st flags1 offset length = Ok st1 -> inv cfg st1.
Proof.
  intros I. unfold discover. destruct (collecting st) eqn:Hc; simpl.
  - rewrite Hc. simpl. intros H. inversion H; subst. exact I.
  - match goal with
    | |- context [if ?b then learn_range ?s ?o ?l else ?s'] =>
        remember (if b then learn_range s o l else s') as stl eqn:Hstl
    end.
    assert (D : disc_shape cfg stl).
    { subst stl. destruct (negb _); [apply disc_shape_learn|apply disc_shape_of_inv]; auto. }
    assert (Hcl : collecting stl = false) by (destruct D as (_ & _ & _ & H & _); exact H).
    rewrite Hcl. simpl.
    destruct (Z.leb_spec (number_of_strings cfg) (len (strings_ranges stl))).
    + apply inv_finalize; auto.
    + intros Heq. inversion Heq; subst. apply inv_of_disc_shape; auto.
Qed.

Lemma write_payload_found cfg st offset length n s e :
  inv cfg st -> collecting st = true ->
  find_range offset length (strings_ranges st) = Some (n, (s, e)) ->
  lookup n (strings_ranges st) = Some (s, e) /\
  exists b f, lookup n (buffers st) = Some b /\ lookup n (filled_count st) = Some f /\
    len b = e - s /\ 0 <= f /\ s <= offset /\ offset + length <= e.
Proof.
  intros I Hc Hf. pose proof (inv_NoDup _ _ I) as Hnd.
  destruct (inv_coll _ _ I Hc) as (_ & Hbuf & Hfc & _).
  apply find_range_Some in Hf as (pre & post & Hrs & _ & [Hs He]). simpl in Hs, He.
  assert (Hl : lookup n (strings_ranges st) = Some (s, e)).
  { apply lookup_NoDup_In; [exact Hnd|]. rewrite Hrs. apply in_elt. }
  split; [exact Hl|].
  destruct (keyed_lookup _ _ _ _ _ Hbuf Hl) as (b & Hb & Hbok).
  destruct (keyed_lookup _ _ _ _ _ Hfc Hl) as (f & Hfl & Hfok).
  exists b, f. unfold buf_ok, count_ok in *. simpl in *. auto 7.
Qed.

(** The fields a write leaves alone. *)
Lemma write_payload_fields st offset length payload st1 :
  write_payload st offset length payload = Ok (Some st1) ->
  strings_ranges st1 = strings_ranges st /\ collecting st1 = collecting st /\
  is_beginning st1 = is_beginning st /\ start_time st1 = start_time st /\
  last_frame_time st1 = last_frame_time st /\ output st1 = output st /\
  max_bytes st1 = max_bytes st /\ frames_written st1 = frames_written st.
Proof.
  unfold write_payload.
  destruct (find_range _ _ _) as [[n [s e]]|]; [|discriminate].
  destruct (lookup n (buffers st)); [|discriminate].
  destruct (lookup n (filled_count st)); [|discriminate].
  intros H. inversion H; subst. simpl. auto 10.
Qed.

Lemma write_payload_inv cfg st offset length payload st1 :
  inv cfg st -> collecting st = true -> len payload = length ->
  write_payload st offset length payload = Ok (Some st1) -> inv cfg st1.
Proof.
  intros I Hc Hlen. pose proof I as [Hk Hn Hch Hd Hcoll Hb].
  unfold write_payload.
  destruct (find_range _ _ _) as [[n [s e]]|] eqn:Hf; [|discriminate].
  destruct (write_payload_found _ _ _ _ _ _ _ I Hc Hf)
    as (Hl & b & f & Hbl & Hfl & Hlb & Hf0 & Hs & He).
  rewrite Hbl, Hfl. intros H. inversion H; subst st1 length; clear H.
  destruct (Hcoll Hc) as (HS & Hbuf & Hfc & Hmb & Hout).
  constructor; simpl; auto; [congruence|].
  intros _. repeat split; auto.
  - eapply keyed_set; [exact Hbuf|exact Hl|]. unfold buf_ok. simpl.
    rewrite py_slice_assign_len; lia.
  - eapply keyed_set; [exact Hfc|exact Hl|]. unfold count_ok.
    pose proof (len_nonneg payload). lia.
Qed.

Lemma emit_frame_inv cfg st now st' :
  inv cfg st -> collecting st = true -> emit_frame cfg st now = Continue st' -> inv cfg st'.
Proof.
  intros I Hc. pose proof I as [Hk Hn Hch Hd Hcoll Hb].
  destruct (Hcoll Hc) as (HS & Hbuf & Hfc & Hmb & (hdr & rest & Hout & Hrest)).
  unfold emit_frame.
  destruct (frame_parts _ _ _); [|discriminate].
  destruct (start_time st) as [t0|] eqn:Ht0; [|discriminate].
  destruct (py_time_ms _); [|discriminate].
  destruct (to_bytes_le _ _); [|discriminate].
  destruct (_ && _); [discriminate|].
  destruct (duration_reached _ _ _); [destruct (_ =? 0); discriminate|].
  intros H. inversion H; subst st'; clear H.
  constructor; simpl; auto; [congruence| |eauto].
  intros _. repeat split; auto.
  - apply keyed_zero_buffers. exact Hbuf.
  - apply keyed_zero_counts; [exact Hfc|].
    intros k. rewrite (keyed_keys _ _ _ Hbuf). auto.
  - eexists hdr, (rest ++ [_]). rewrite Hout. split; [reflexivity|].
    apply Forall_app. split; [exact Hrest|]. constructor; [exact Logic.I|constructor].
Qed.

Lemma capture_inv cfg st now offset length payload st' :
  inv cfg st -> collecting st = true -> len payload = length ->
  capture cfg st now offset length payload = Continue st' -> inv cfg st'.
Proof.
  intros I Hc Hlen. unfold capture.
  destruct (write_payload st offset length payload) as [[st1|]|e out] eqn:Hw;
    [|intros H; inversion H; subst; exact I|discriminate].
  pose proof (write_payload_inv _ _ _ _ _ _ I Hc Hlen Hw) as I1.
  destruct (write_payload_fields _ _ _ _ _ Hw) as (_ & Hc1 & _).
  destruct (all_full_check _ _ _) as [[|]|]; [|intros H; inversion H; subst; exact I1|discriminate].
  apply emit_frame_inv; [exact I1|congruence].
Qed.

Lemma skip_or_capture_inv cfg st now offset length payload st' :
  inv cfg st -> len payload = length ->
  skip_or_capture cfg st now offset length payload = Continue st' -> inv cfg st'.
Proof.
  intros I Hlen. unfold skip_or_capture.
  destruct (is_beginning st && is_empty_bytearray payload).
  - intros H. inversion H; subst. apply inv_count_empty. exact I.
  - assert (I2 : inv cfg (if is_beginning st then begin_capture st now else st))
      by (destruct (is_beginning st); [apply inv_begin_capture|]; exact I).
    assert (Hc2 : collecting (if is_beginning st then begin_capture st now else st) = collecting st)
      by (destruct (is_beginning st); reflexivity).
    destruct (collecting st) eqn:Hc; rewrite Hc2.
    + apply capture_inv; auto.
    + intros H. inversion H; subst. exact I2.
Qed.

Lemma handle_packet_inv cfg st now flags1 offset length payload st' :
  inv cfg st -> len payload = length ->
  handle_packet cfg st now flags1 offset length payload = Continue st' -> inv cfg st'.
Proof.
  intros I Hlen. unfold handle_packet.
  destruct (discover cfg st flags1 offset length) as [st1|e out] eqn:Hd; [|discriminate].
  apply skip_or_capture_inv; [|exact Hlen]. eapply discover_inv; eauto.
Qed.

Lemma on_timeout_continue st now st' : on_timeout st now = Continue st' -> st' = st.
Proof.
  unfold on_timeout.
  destruct (collecting st && negb (is_beginning st)); [|congruence].
  destruct (last_frame_time st) as [lft|]; [|congruence].
  destruct (5000000 <=? now - lft); [|congruence].
  destruct (start_time st); [|discriminate].
  destruct (_ && _); discriminate.
Qed.

Lemma step_inv cfg st ev st' : inv cfg st -> step cfg st ev = Continue st' -> inv cfg st'.
Proof.
  intros I. destruct ev as [now data|now]; simpl.
  - unfold step_recv. destruct (len data <? 10); [intros H; inversion H; subst; exact I|].
    destruct (if negb _ then _ else _) as [pos|]; [|intros H; inversion H; subst; exact I].
    destruct (len (py_slice data pos (pos + be_uint (py_slice data 8 10))) =?
              be_uint (py_slice data 8 10)) eqn:Hl; simpl.
    + apply Z.eqb_eq in Hl. apply handle_packet_inv; [apply inv_incr; exact I|exact Hl].
    + intros H. inversion H; subst. apply inv_incr. exact I.
  - intros H. apply on_timeout_continue in H. subst. exact I.
Qed.

Lemma reachable_inv cfg st : 0 < number_of_strings cfg -> reachable cfg st -> inv cfg st.
Proof.
  intros Hs. induction 1 as [|st ev st' _ IH Hstep].
  - apply inv_init. exact Hs.
  - eapply step_inv; eauto.
Qed.

Lemma run_reachable cfg st evs st' :
  reachable cfg st -> run cfg st evs = Continue st' -> reachable cfg st'.
Proof.
  revert st. induction evs as [|ev evs IH]; intros st R; simpl.
  - intros H. inversion H; subst. exact R.
  - destruct (step cfg st ev) as [st1| |] eqn:Hs; try discriminate.
    apply IH. eapply reach_step; eauto.
Qed.

Lemma find_range_first offset length pre r post :
  Forall (fun r' => ~ fits offset length r') pre -> fits offset length r ->
  find_range offset length (pre ++ r :: post) = Some r.
Proof.
  intros Hpre Hr. induction Hpre as [|[n [s e]] pre Hn _ IH]; simpl.
  - destruct r as [n [s e]]. destruct Hr as [Hs He]. simpl in *.
    apply Z.leb_le in Hs. apply Z.leb_le in He. now rewrite Hs, He.
  - destruct ((s <=? offset) && (offset + length <=? e)) eqn:Hf; [|exact IH].
    exfalso. apply Hn. apply andb_true_iff in Hf. rewrite !Z.leb_le in Hf.
    unfold fits; simpl; lia.
Qed.

Lemma write_payload_raise_output st offset length payload e out :
  write_payload st offset length payload = Raise e out -> out = output st.
Proof.
  unfold write_payload.
  destruct (find_range _ _ _) as [[n [s e']]|]; [|discriminate].
  destruct (lookup n (buffers st)); [|intros H; inversion H; reflexivity].
  destruct (lookup n (filled_count st)); [discriminate|intros H; inversion H; reflexivity].
Qed.

Lemma discover_collecting cfg st flags1 offset length :
  collecting st = true -> discover cfg st flags1 offset length = Ok st.
Proof. intros Hc. unfold discover. rewrite Hc. simpl. rewrite Hc. reflexivity. Qed.

(** * The claims *)

(** ** C5: the matching rule of the Frame Assembler.
    During capture a packet [(offset, length, payload)] is accepted by the
    first range [(s, e)], in assignment order, with [s <= offset] and
    [offset + length <= e]; the payload then replaces bytes
    [[offset - s, offset - s + length)] of that string's buffer, its fill
    count grows by [length], and no other buffer or count changes.  A packet
    that fits no range whole (one spanning a boundary included) leaves every
    buffer and count as it was. *)
Theorem capture_matching_rule cfg st now offset length payload :
  inv cfg st -> collecting st = true -> len payload = length ->
  (Forall (fun r => ~ fits offset length r) (strings_ranges st) ->
     write_payload st offset length payload = Ok None /\
     capture cfg st now offset length payload = Continue st) /\
  (forall pre n s e post,
     strings_ranges st = pre ++ (n, (s, e)) :: post ->
     Forall (fun r => ~ fits offset length r) pre ->
     s <= offset -> offset + length <= e ->
     exists b f st1,
       lookup n (buffers st) = Some b /\ lookup n (filled_count st) = Some f /\
       write_payload st offset length payload = Ok (Some st1) /\
       lookup n (buffers st1) =
         Some (firstn (Z.to_nat (offset - s)) b ++ payload ++
               skipn (Z.to_nat (offset - s + length)) b) /\
       lookup n (filled_count st1) = Some (f + length) /\
       (forall m, m <> n ->
          lookup m (buffers st1) = lookup m (buffers st) /\
          lookup m (filled_count st1) = lookup m (filled_count st))).
Proof.
  intros I Hc Hlen. split.
  - intros Hnone. apply find_range_None in Hnone.
    unfold capture, write_payload. rewrite Hnone. auto.
  - intros pre n s e post Hrs Hpre Hs He.
    assert (Hf : find_range offset length (strings_ranges st) = Some (n, (s, e))).
    { rewrite Hrs. apply find_range_first; [exact Hpre|split; simpl; lia]. }
    destruct (write_payload_found _ _ _ _ _ _ _ I Hc Hf)
      as (Hl & b & f & Hbl & Hfl & Hlb & Hf0 & _ & _).
    exists b, f. unfold write_payload. rewrite Hf, Hbl, Hfl.
    eexists. split; [reflexivity|]. split; [reflexivity|]. split; [reflexivity|].
    simpl. rewrite !lookup_set_eq. split.
    + subst length. rewrite py_slice_assign_inside by lia. reflexivity.
    + split; [reflexivity|]. intros m Hm. rewrite !lookup_set_neq by exact Hm. auto.
Qed.

Lemma scenario_b_reachable : reachable cfg2 (session_after cfg2 scenario_b).
Proof.
  apply (run_reachable cfg2 init_session scenario_b); [constructor|].
  vm_compute. reflexivity.
Qed.

Lemma scenario_b_ranges :
  strings_ranges (session_after cfg2 scenario_b) = [(1, (0, 15)); (2, (15, 45))].
Proof. vm_compute. reflexivity. Qed.

Lemma capture_matching_rule_witness :
  inv cfg2 (session_after cfg2 scenario_b) /\
  collecting (session_after cfg2 scenario_b) = true /\ len (px 10) = 10 /\
  capture cfg2 (session_after cfg2 scenario_b) 2 10 10 (px 10) =
    Continue (session_after cfg2 scenario_b).
Proof.
  assert (I : inv cfg2 (session_after cfg2 scenario_b))
    by (apply reachable_inv; [reflexivity|apply scenario_b_reachable]).
  assert (Hc : collecting (session_after cfg2 scenario_b) = true) by (vm_compute; reflexivity).
  split; [exact I|]. split; [exact Hc|]. split; [reflexivity|].
  apply (proj1 (capture_matching_rule cfg2 _ 2 10 10 (px 10) I Hc eq_refl)).
  rewrite scenario_b_ranges. repeat constructor; unfold fits; simpl; lia.
Defined.

Lemma on_timeout_output st now : outcome_output (on_timeout st now) = output st.
Proof.
  unfold on_timeout.
  destruct (collecting st && negb (is_beginning st)); [|reflexivity].
  destruct (last_frame_time st) as [lft|]; [|reflexivity].
  destruct (5000000 <=? now - lft); [|reflexivity].
  destruct (start_time st); [|reflexivity].
  destruct (_ && _); reflexivity.
Qed.

Lemma write_payload_overfilled cfg st offset length payload st1 n :
  inv cfg st -> collecting st = true -> len payload = length -> overfilled n st ->
  write_payload st offset length payload = Ok (Some st1) -> overfilled n st1.
Proof.
  intros I Hc Hlen (f & b & Hf & Hb & Hlt).
  unfold write_payload.
  destruct (find_range _ _ _) as [[k [s e]]|] eqn:Hfr; [|discriminate].
  destruct (write_payload_found _ _ _ _ _ _ _ I Hc Hfr)
    as (_ & bk & fk & Hbk & Hfk & Hlbk & _ & Hs & He).
  rewrite Hbk, Hfk. intros H. inversion H; subst st1 length; clear H.
  unfold overfilled. simpl. destruct (Z.eq_dec n k) as [->|Hne].
  - rewrite !lookup_set_eq. rewrite Hb in Hbk. rewrite Hf in Hfk.
    inversion Hbk; inversion Hfk; subst.
    eexists _, _. split; [reflexivity|]. split; [reflexivity|].
    rewrite py_slice_assign_len by lia. pose proof (len_nonneg payload). lia.
  - rewrite !lookup_set_neq by exact Hne. eauto.
Qed.

Lemma all_full_overfilled n st :
  overfilled n st ->
  all_full_check (map fst (buffers st)) (buffers st) (filled_count st) <> Some true.
Proof.
  intros (f & b & Hf & Hb & Hlt) Hall.
  pose proof (all_full_check_true _ _ _ Hall n b (lookup_keys_In _ _ _ Hb) Hb) as Heq.
  unfold get in Heq. rewrite Hf in Heq. lia.
Qed.

Lemma capture_overfilled cfg st now offset length payload n :
  inv cfg st -> collecting st = true -> len payload = length -> overfilled n st ->
  outcome_output (capture cfg st now offset length payload) = output st /\
  (forall st', capture cfg st now offset length payload = Continue st' ->
     inv cfg st' /\ collecting st' = true /\ overfilled n st').
Proof.
  intros I Hc Hlen Hov. unfold capture.
  destruct (write_payload st offset length payload) as [[st1|]|e out] eqn:Hw.
  - pose proof (write_payload_inv _ _ _ _ _ _ I Hc Hlen Hw) as I1.
    pose proof (write_payload_overfilled _ _ _ _ _ _ _ I Hc Hlen Hov Hw) as Hov1.
    destruct (write_payload_fields _ _ _ _ _ Hw) as (_ & Hc1 & _ & _ & _ & Hout1 & _).
    destruct (all_full_check _ _ _) as [[|]|] eqn:Hall.
    + exfalso. exact (all_full_overfilled _ _ Hov1 Hall).
    + split; [exact Hout1|]. intros st' H. inversion H; subst. rewrite Hc1. auto.
    + split; [exact Hout1|discriminate].
  - split; [reflexivity|]. intros st' H. inversion H; subst. auto.
  - split; [exact (write_payload_raise_output _ _ _ _ _ _ Hw)|discriminate].
Qed.

Lemma step_overfilled cfg st ev n :
  inv cfg st -> collecting st = true -> overfilled n st ->
  outcome_output (step cfg st ev) = output st /\
  (forall st', step cfg st ev = Continue st' ->
     inv cfg st' /\ collecting st' = true /\ overfilled n st').
Proof.
  intros I Hc Hov. destruct ev as [now data|now]; simpl.
  - unfold step_recv. destruct (len data <? 10).
    { split; [reflexivity|]. intros st' H. inversion H; subst. auto. }
    destruct (if negb _ then _ else _) as [pos|].
    2: { split; [reflexivity|]. intros st' H. inversion H; subst. auto. }
    assert (Ii : inv cfg (incr_packets_seen st)) by (apply inv_incr; exact I).
    assert (Hovi : overfilled n (incr_packets_seen st)) by exact Hov.
    destruct (len (py_slice data pos (pos + be_uint (py_slice data 8 10))) =?
              be_uint (py_slice data 8 10)) eqn:Hl; simpl.
    2: { split; [reflexivity|]. intros st' H. inversion H; subst. auto. }
    apply Z.eqb_eq in Hl. unfold handle_packet.
    rewrite discover_collecting by exact Hc.
    unfold skip_or_capture. simpl.
    destruct (is_beginning st && is_empty_bytearray _).
    + split; [reflexivity|]. intros st' H. inversion H; subst.
      split; [apply inv_count_empty; exact Ii|]. split; [exact Hc|exact Hov].
    + destruct (is_beginning st).
      * change (collecting (begin_capture (incr_packets_seen st) now)) with (collecting st).
        rewrite Hc.
        exact (capture_overfilled cfg (begin_capture (incr_packets_seen st) now) now _ _ _ n
                 (inv_begin_capture _ _ _ Ii) Hc Hl Hov).
      * change (collecting (incr_packets_seen st)) with (collecting st). rewrite Hc.
        exact (capture_overfilled cfg (incr_packets_seen st) now _ _ _ n Ii Hc Hl Hovi).
  - rewrite on_timeout_output. split; [reflexivity|].
    intros st' H. apply on_timeout_continue in H. subst. auto.
Qed.

(** ** C10: an overlapping write blocks every later frame.
    Once, during capture, some string's fill count exceeds the length of its
    buffer, that stays so for the rest of the session, the all-buffers-full
    condition never holds again, and no further output is written, whatever
    events follow. *)
Theorem overlap_blocks_frames cfg st n f b evs :
  0 < number_of_strings cfg -> reachable cfg st -> collecting st = true ->
  lookup n (filled_count st) = Some f -> lookup n (buffers st) = Some b -> len b < f ->
  outcome_output (run cfg st evs) = output st /\
  (forall st', run cfg st evs = Continue st' ->
     exists f' b', lookup n (filled_count st') = Some f' /\
       lookup n (buffers st') = Some b' /\ len b' < f').
Proof.
  intros Hs R Hc Hf Hb Hlt.
  assert (I : inv cfg st) by (apply reachable_inv; assumption).
  assert (Hov : overfilled n st) by (exists f, b; auto).
  clear R Hf Hb Hlt. revert st I Hc Hov.
  induction evs as [|ev evs IH]; intros st I Hc Hov; simpl.
  - split; [reflexivity|]. intros st' H. inversion H; subst. exact Hov.
  - destruct (step_overfilled cfg st ev n I Hc Hov) as [Hout Hnext].
    destruct (step cfg st ev) as [st1|out|e out] eqn:Hstep.
    + destruct (Hnext st1 eq_refl) as (I1 & Hc1 & Hov1).
      destruct (IH st1 I1 Hc1 Hov1) as [Hout' Hnext'].
      simpl in Hout. split; [congruence|exact Hnext'].
    + split; [exact Hout|discriminate].
    + split; [exact Hout|discriminate].
Qed.

Lemma overlap_run_reachable : reachable cfg1 (session_after cfg1 overlap_run).
Proof.
  apply (run_reachable cfg1 init_session overlap_run); [constructor|].
  vm_compute. reflexivity.
Qed.

Lemma overlap_blocks_frames_witness :
  lookup 1 (filled_count (session_after cfg1 overlap_run)) = Some 8 /\
  lookup 1 (buffers (session_after cfg1 overlap_run)) = Some ([x00; x00] ++ px 4) /\
  outcome_output (run cfg1 (session_after cfg1 overlap_run) [Recv 2 (ddp x40 0 2 (px 2))]) =
    output (session_after cfg1 overlap_run).
Proof.
  assert (Hf : lookup 1 (filled_count (session_after cfg1 overlap_run)) = Some 8)
    by (vm_compute; reflexivity).
  assert (Hb : lookup 1 (buffers (session_after cfg1 overlap_run)) = Some ([x00; x00] ++ px 4))
    by (vm_compute; reflexivity).
  split; [exact Hf|]. split; [exact Hb|].
  apply (proj1 (overlap_blocks_frames cfg1 _ 1 8 ([x00; x00] ++ px 4) [Recv 2 (ddp x40 0 2 (px 2))]
                  eq_refl overlap_run_reachable (eq_refl true) Hf Hb eq_refl)).
Defined.

Lemma all_full_check_intro ns bufs fc :
  (forall n, In n ns -> exists b, lookup n bufs = Some b /\ get n fc 0 = len b) ->
  all_full_check ns bufs fc = Some true.
Proof.
  induction ns as [|n ns IH]; intros H; simpl; [reflexivity|].
  destruct (H n (or_introl eq_refl)) as (b & Hb & Hg). rewrite Hb, Hg, Z.eqb_refl.
  apply IH. intros k Hk. apply H. now right.
Qed.

Lemma inv_lookup_buffer cfg st n b :
  inv cfg st -> collecting st = true -> lookup n (buffers st) = Some b ->
  exists s e, lookup n (strings_ranges st) = Some (s, e) /\ len b = e - s.
Proof.
  intros I Hc Hb. destruct (inv_coll _ _ I Hc) as (_ & Hbuf & _).
  assert (Hin : In n (map fst (strings_ranges st))).
  { rewrite (keyed_keys _ _ _ Hbuf). eapply lookup_keys_In. exact Hb. }
  destruct (lookup_In_keys _ _ Hin) as [[s e] Hr].
  destruct (keyed_lookup _ _ _ _ _ Hbuf Hr) as (b' & Hb' & Hok).
  rewrite Hb in Hb'. inversion Hb'; subst. exists s, e. auto.
Qed.

Lemma inv_lookup_count cfg st n f :
  inv cfg st -> collecting st = true -> lookup n (filled_count st) = Some f -> 0 <= f.
Proof.
  intros I Hc Hf. destruct (inv_coll _ _ I Hc) as (_ & _ & Hfc & _).
  assert (Hin : In n (map fst (strings_ranges st))).
  { rewrite (keyed_keys _ _ _ Hfc). eapply lookup_keys_In. exact Hf. }
  destruct (lookup_In_keys _ _ Hin) as [r Hr].
  destruct (keyed_lookup _ _ _ _ _ Hfc Hr) as (f' & Hf' & Hok).
  rewrite Hf in Hf'. inversion Hf'; subst. exact Hok.
Qed.

(** ** C2 (as the code has it): fill counts.
    During capture every string's fill count is non-negative and its buffer
    keeps its range's length; the completion check holds exactly when every
    string's fill count equals its own buffer's length.  Every step keeps
    this (accepted writes and the post-frame reset included).  The bound
    [filledBytes <= len(data)] is not kept: see
    [fill_count_bound_fails]. *)
Theorem fill_counts_invariant cfg st :
  0 < number_of_strings cfg -> reachable cfg st -> collecting st = true ->
  (forall n f, lookup n (filled_count st) = Some f -> 0 <= f) /\
  (forall n b, lookup n (buffers st) = Some b ->
     exists s e, lookup n (strings_ranges st) = Some (s, e) /\ len b = e - s) /\
  (all_full_check (map fst (buffers st)) (buffers st) (filled_count st) = Some true <->
   (forall n b, lookup n (buffers st) = Some b -> lookup n (filled_count st) = Some (len b))).
Proof.
  intros Hs R Hc. pose proof (reachable_inv _ _ Hs R) as I.
  destruct (inv_coll _ _ I Hc) as (_ & Hbuf & Hfc & _).
  split; [intros n f; eapply inv_lookup_count; eassumption|].
  split; [intros n b; eapply inv_lookup_buffer; eassumption|].
  split.
  - intros Hall n b Hb.
    pose proof (all_full_check_true _ _ _ Hall n b (lookup_keys_In _ _ _ Hb) Hb) as Hg.
    assert (Hin : In n (map fst (filled_count st))).
    { rewrite <- (keyed_keys _ _ _ Hfc), (keyed_keys _ _ _ Hbuf).
      eapply lookup_keys_In. exact Hb. }
    destruct (lookup_In_keys _ _ Hin) as [f Hf].
    unfold get in Hg. rewrite Hf in Hg. congruence.
  - intros H. apply all_full_check_intro. intros n Hn.
    destruct (lookup_In_keys _ _ Hn) as [b Hb]. exists b. split; [exact Hb|].
    unfold get. rewrite (H n b Hb). reflexivity.
Qed.

(** C2 as stated fails: two accepted writes to bytes [2..5] of the single
    6-byte string leave its fill count at 8. *)
Lemma fill_count_bound_fails :
  ~ (forall st, reachable cfg1 st -> collecting st = true ->
       forall n f b, lookup n (filled_count st) = Some f -> lookup n (buffers st) = Some b ->
       0 <= f <= len b).
Proof.
  intros H.
  assert (Hf : lookup 1 (filled_count (session_after cfg1 overlap_run)) = Some 8)
    by (vm_compute; reflexivity).
  assert (Hb : lookup 1 (buffers (session_after cfg1 overlap_run)) = Some ([x00; x00] ++ px 4))
    by (vm_compute; reflexivity).
  specialize (H _ overlap_run_reachable eq_refl 1 8 _ Hf Hb).
  vm_compute in H. destruct H as [_ H]. apply H. reflexivity.
Qed.

Lemma fill_counts_invariant_witness :
  collecting (session_after cfg2 scenario_b) = true /\
  lookup 2 (filled_count (session_after cfg2 scenario_b)) = Some 30 /\ 0 <= 30.
Proof.
  assert (Hc : collecting (session_after cfg2 scenario_b) = true) by (vm_compute; reflexivity).
  assert (Hl : lookup 2 (filled_count (session_after cfg2 scenario_b)) = Some 30)
    by (vm_compute; reflexivity).
  split; [exact Hc|]. split; [exact Hl|].
  exact (proj1 (fill_counts_invariant cfg2 _ eq_refl scenario_b_reachable Hc) 2 30 Hl).
Defined.

Lemma chain_partitions rs a t :
  chain rs a t -> Forall (fun r => fst (snd r) <= snd (snd r)) rs ->
  a <= t /\ partitions rs a t.
Proof.
  induction 1 as [a|n a b rs t Hch IH]; intros Hle.
  - split; [lia|]. intros x. unfold covers. simpl.
    destruct (Z.leb_spec a x), (Z.ltb_spec x a); simpl; try reflexivity; lia.
  - inversion Hle as [|? ? Hab Hrest]; subst. simpl in Hab.
    destruct (IH Hrest) as [Hbt Hp]. split; [lia|].
    intros x. specialize (Hp x). unfold covers in *. simpl.
    destruct (Z.leb_spec a x), (Z.ltb_spec x b), (Z.leb_spec b x), (Z.ltb_spec x t);
      simpl in *; rewrite ?Hp; try reflexivity; lia.
Qed.

Lemma keyed_buf_ok_nonneg rs bufs :
  Forall2 (keyed buf_ok) rs bufs -> Forall (fun r => fst (snd r) <= snd (snd r)) rs.
Proof.
  induction 1 as [|r b rs bufs [_ Hb] _ IH]; constructor; auto.
  unfold buf_ok in Hb. pose proof (len_nonneg (snd b)). lia.
Qed.

(** The first push packet of a two-string discovery: range [(0, 30)]. *)
Lemma first_push_session :
  run cfg2 init_session [Recv 0 (ddp x41 0 30 (px 30))] =
    Continue (session_after cfg2 [Recv 0 (ddp x41 0 30 (px 30))]).
Proof. vm_compute. reflexivity. Qed.

(** C3 as stated fails: pushes ending at 30 and then at 10 (a reordered
    second push) are learned as [(0, 30)] and [(30, 10)], which do not
    partition [[0, 10)]; discovery then raises [ValueError] when it
    allocates [bytearray(-20)].  With pushes ending at 300000 and then at
    10, the longest range gives [max_pixels = 100000]: discovery raises
    [OverflowError] at the header, before any allocation, and leaves the
    file empty. *)
Lemma learned_ranges_partition_fails :
  let st1 := session_after cfg2 [Recv 0 (ddp x41 0 30 (px 30))] in
  reachable cfg2 st1 /\
  strings_ranges (learn_range (incr_packets_seen st1) 0 10) = [(1, (0, 30)); (2, (30, 10))] /\
  start (learn_range (incr_packets_seen st1) 0 10) = 10 /\
  ~ partitions (strings_ranges (learn_range (incr_packets_seen st1) 0 10)) 0 10 /\
  step cfg2 st1 (Recv 1 (ddp x41 0 10 (px 10))) = Crash ValueError [Create [x0a; x00]] /\
  run cfg2 init_session [Recv 0 (ddp x41 299970 30 (px 30)); Recv 1 (ddp x41 0 10 (px 10))] =
    Crash OverflowError [Create []].
Proof.
  intros st1. split.
  - apply (run_reachable cfg2 init_session _ _ (reach_init cfg2) first_push_session).
  - split; [vm_compute; reflexivity|]. split; [vm_compute; reflexivity|].
    split; [|split; vm_compute; reflexivity].
    intros H. specialize (H 15). vm_compute in H. discriminate.
Qed.

Lemma fold_max_spec l m :
  In (fold_left Z.max l m) (m :: l) /\ Forall (fun x => x <= fold_left Z.max l m) (m :: l).
Proof.
  revert m. induction l as [|x l IH]; intros m; simpl.
  - split; [now left|]. constructor; [lia|constructor].
  - destruct (IH (Z.max m x)) as [Hin Hle].
    inversion Hle as [|? ? Hmx Hrest]; subst. split.
    + destruct Hin as [Heq|Hin]; [|right; right; exact Hin].
      rewrite <- Heq. destruct (Z.max_spec m x) as [[_ ->]|[_ ->]]; [right; left|left]; reflexivity.
    + constructor; [lia|constructor; [lia|exact Hrest]].
Qed.

Lemma py_max_is l ml :
  In ml l -> Forall (fun x => x <= ml) l -> py_max l = Some ml.
Proof.
  destruct l as [|x l]; [intros []|]. intros Hin Hle. simpl. f_equal.
  destruct (fold_max_spec l x) as [Hin' Hle'].
  rewrite Forall_forall in Hle, Hle'.
  specialize (Hle _ Hin'). specialize (Hle' _ Hin). lia.
Qed.

Lemma alloc_buffers_fresh rs bufs fc :
  NoDup (map fst rs) -> Forall (fun r => fst (snd r) <= snd (snd r)) rs ->
  (forall k, In k (map fst rs) -> ~ In k (map fst bufs) /\ ~ In k (map fst fc)) ->
  alloc_buffers rs bufs fc =
    Some (bufs ++ map (fun r => (fst r, repeat x00 (Z.to_nat (snd (snd r) - fst (snd r))))) rs,
          fc ++ map (fun r => (fst r, 0)) rs).
Proof.
  revert bufs fc. induction rs as [|[n [s e]] rs IH]; intros bufs fc Hnd Hle Hfresh; simpl.
  - rewrite !app_nil_r. reflexivity.
  - inversion Hle as [|? ? Hse Hle']; subst. simpl in Hse.
    unfold bytearray. destruct (Z.ltb_spec (e - s) 0); [lia|].
    inversion Hnd as [|? ? Hn Hnd']; subst.
    destruct (Hfresh n (or_introl eq_refl)) as [Hb Hf].
    rewrite (set_fresh n _ bufs Hb), (set_fresh n _ fc Hf).
    rewrite IH; [rewrite <- !app_assoc; reflexivity|exact Hnd'|exact Hle'|].
    intros k Hk. rewrite !map_app. simpl. destruct (Hfresh k (or_intror Hk)).
    rewrite !in_app_iff. simpl. split; intros [?|[?|?]]; subst; tauto.
Qed.

Lemma in_range_lengths_neg rs :
  Exists (fun r => snd (snd r) - fst (snd r) < 0) rs ->
  exists x, In x (range_lengths rs) /\ x < 0.
Proof.
  induction 1 as [[n [s e]] rs H|r rs _ [x [Hx Hneg]]].
  - exists (e - s). simpl in *. split; [now left|lia].
  - exists x. split; [right; exact Hx|exact Hneg].
Qed.

(** ** C8 (as the code has it): discovery finalisation.
    (a) From a reachable discovery session, [discover] finalises exactly
    when the learned ranges (after learning the current push) number [S].
    (b) Finalisation of [S] fresh ranges of non-negative length whose
    maximal length [ml] has [ml / 3 < 65536] appends the header record
    [Create (ml / 3 as 2 little-endian bytes)], sets [max_bytes] to
    [ml / 3 * 3], allocates one zero buffer per range of that range's
    length, sets every fill count to 0 and starts collecting.
    (c) Otherwise it raises: [OverflowError] when [ml / 3 >= 65536],
    after the file was opened with ["wb"] (created or emptied) and before
    any header byte is written, and some exception when a range is
    negative.
    (d) Every reachable session has written no output before collecting
    and exactly one header record, the first operation, afterwards.
    (e) A single push packet for [(0, 30)] gives the header [10]. *)
Theorem discovery_finalization cfg :
  0 < number_of_strings cfg ->
  (forall st flags1 offset length,
     reachable cfg st -> collecting st = false ->
     let st' := if negb (Z.land (byte_val flags1) 1 =? 0)
                then learn_range st offset length else st in
     discover cfg st flags1 offset length =
       if len (strings_ranges st') =? number_of_strings cfg then finalize st' else Ok st') /\
  (forall st ml,
     NoDup (map fst (strings_ranges st)) -> buffers st = [] -> filled_count st = [] ->
     In ml (range_lengths (strings_ranges st)) ->
     Forall (fun x => x <= ml) (range_lengths (strings_ranges st)) ->
     Forall (fun r => fst (snd r) <= snd (snd r)) (strings_ranges st) ->
     ml / 3 < 65536 ->
     exists st1, finalize st = Ok st1 /\
       collecting st1 = true /\ strings_ranges st1 = strings_ranges st /\
       max_bytes st1 = Some (ml / 3 * 3) /\
       output st1 = output st ++ [Create (le_digits 2 (ml / 3))] /\
       buffers st1 = map (fun r => (fst r, repeat x00 (Z.to_nat (snd (snd r) - fst (snd r)))))
                       (strings_ranges st) /\
       filled_count st1 = map (fun r => (fst r, 0)) (strings_ranges st) /\
       frames_written st1 = 0) /\
  (forall st ml,
     py_max (range_lengths (strings_ranges st)) = Some ml -> 65536 <= ml / 3 ->
     finalize st = Raise OverflowError (output st ++ [Create []])) /\
  (forall st,
     Exists (fun r => snd (snd r) - fst (snd r) < 0) (strings_ranges st) ->
     exists e out, finalize st = Raise e out) /\
  (forall st, reachable cfg st ->
     (collecting st = false -> output st = []) /\
     (collecting st = true ->
        exists hdr rest, output st = Create hdr :: rest /\ Forall is_append rest)) /\
  (max_bytes (session_after cfg1 scenario_a_discovery) = Some 30 /\
   output (session_after cfg1 scenario_a_discovery) = [Create [x0a; x00]]).
Proof.
  intros Hs. split; [|split; [|split; [|split; [|split]]]].
  - intros st flags1 offset length R Hc st'.
    pose proof (reachable_inv _ _ Hs R) as I.
    destruct (inv_disc _ _ I Hc) as (_ & _ & _ & Hlt).
    unfold discover. rewrite Hc. simpl negb. rewrite !andb_true_l. fold st'.
    assert (Hc' : collecting st' = false) by (unfold st'; destruct (negb _); exact Hc).
    assert (Hle : len (strings_ranges st') <= number_of_strings cfg).
    { unfold st'. destruct (negb _); [|lia].
      destruct (disc_shape_learn cfg st offset length I Hc) as (_ & _ & _ & _ & _ & _ & _ & H & _).
      exact H. }
    rewrite Hc'. simpl negb. rewrite andb_true_l.
    destruct (Z.eqb_spec (len (strings_ranges st')) (number_of_strings cfg)),
             (Z.leb_spec (number_of_strings cfg) (len (strings_ranges st'))); try reflexivity; lia.
  - intros st ml Hnd Hb Hf Hin Hmax Hnn Hml.
    assert (Hml0 : 0 <= ml).
    { unfold range_lengths in Hin. apply in_map_iff in Hin as [[n [s e]] [<- Hr]].
      rewrite Forall_forall in Hnn. specialize (Hnn _ Hr). simpl in Hnn. lia. }
    unfold finalize. rewrite (py_max_is _ _ Hin Hmax).
    unfold to_bytes_le, CHANNELS_PER_PIXEL.
    replace ((0 <=? ml / 3) && (ml / 3 <? 256 ^ Z.of_nat 2)) with true
      by (symmetry; apply andb_true_iff; split; [apply Z.leb_le|apply Z.ltb_lt];
          [apply Z.div_pos|change (256 ^ Z.of_nat 2) with 65536]; lia).
    rewrite Hb, Hf, alloc_buffers_fresh; [|exact Hnd|exact Hnn|intros; simpl; tauto].
    eexists. split; [reflexivity|]. simpl. repeat split.
  - intros st ml Hm Hge. unfold finalize. rewrite Hm. unfold to_bytes_le, CHANNELS_PER_PIXEL.
    replace ((0 <=? ml / 3) && (ml / 3 <? 256 ^ Z.of_nat 2)) with false
      by (symmetry; apply andb_false_iff; right; apply Z.ltb_ge;
          change (256 ^ Z.of_nat 2) with 65536; lia).
    reflexivity.
  - intros st Hneg. unfold finalize.
    destruct (py_max _) as [ml|]; [|eauto].
    destruct (to_bytes_le _ _); [|eauto].
    apply alloc_buffers_None with (bufs := buffers st) (fc := filled_count st) in Hneg.
    rewrite Hneg. eauto.
  - intros st R. pose proof (reachable_inv _ _ Hs R) as I. split.
    + intros Hc. exact (proj1 (proj2 (proj2 (inv_disc _ _ I Hc)))).
    + intros Hc. destruct (inv_coll _ _ I Hc) as (_ & _ & _ & _ & H). exact H.
  - split; vm_compute; reflexivity.
Qed.

Lemma discovery_finalization_witness :
  0 < number_of_strings cfg1 /\
  exists st1, finalize (learn_range init_session 0 30) = Ok st1 /\
    max_bytes st1 = Some 30 /\ output st1 = [Create (le_digits 2 10)].
Proof.
  split; [reflexivity|].
  destruct (discovery_finalization cfg1 eq_refl) as (_ & Hfin & _).
  destruct (Hfin (learn_range init_session 0 30) 30) as (st1 & H1 & _ & _ & Hmb & Hout & _);
    [vm_compute; repeat constructor; simpl; tauto|reflexivity|reflexivity
    |vm_compute; left; reflexivity|vm_compute; repeat constructor; discriminate
    |vm_compute; repeat constructor; discriminate|vm_compute; reflexivity|].
  exists st1. split; [exact H1|]. split; [exact Hmb|]. rewrite Hout. reflexivity.
Defined.

(** C8 as stated fails: a single push packet for [(0, 196608)] gives
    [max_pixels = 65536], which does not fit 2 bytes.  The file has
    already been opened with ["wb"] (line 150), so it is created or
    emptied; [to_bytes] then raises [OverflowError] before any header byte
    is written and before any buffer is allocated. *)
Lemma header_overflow_fails :
  step cfg1 init_session (Recv 0 (ddp x41 196608 0 [])) = Crash OverflowError [Create []].
Proof. vm_compute. reflexivity. Qed.

Lemma byte_val_range b : 0 <= byte_val b < 256.
Proof. unfold byte_val. pose proof (Byte.to_N_bounded b). lia. Qed.

Lemma len_payload {A} (l : list A) p n :
  0 <= p <= len l -> 0 <= n ->
  len (firstn (Z.to_nat n) (skipn (Z.to_nat p) l)) = Z.min n (len l - p).
Proof.
  intros Hp Hn. unfold len in *. rewrite length_firstn, length_skipn. lia.
Qed.

(** ** C6 (as the code has it): decoding a datagram.
    A datagram shorter than 10 bytes, and one with the timecode bit
    (bit 4 of byte 0) set but shorter than 14 bytes, is dropped with the
    session unchanged.  Otherwise [packets_seen] is incremented first; a
    datagram with fewer than [length] bytes after the payload start
    (14 with timecode, 10 without) is then dropped with only that counter
    changed; any other datagram is handled with the big-endian offset of
    bytes 4-7, the big-endian length of bytes 8-9 and the [length] bytes
    from the payload start. *)
Theorem decode_datagram cfg st now :
  (forall data, len data < 10 -> step_recv cfg st now data = Continue st) /\
  (forall b0 b1 b2 b3 o0 o1 o2 o3 l0 l1 rest,
     let data := [b0; b1; b2; b3; o0; o1; o2; o3; l0; l1] ++ rest in
     let offset := byte_val o0 * 16777216 + byte_val o1 * 65536 +
                   byte_val o2 * 256 + byte_val o3 in
     let length := byte_val l0 * 256 + byte_val l1 in
     let pos := if Z.land (byte_val b0) 16 =? 0 then 10 else 14 in
     (pos = 14 -> len data < 14 -> step_recv cfg st now data = Continue st) /\
     (pos <= len data -> len data - pos < length ->
        step_recv cfg st now data = Continue (incr_packets_seen st)) /\
     (length <= len data - pos ->
        let payload := firstn (Z.to_nat length) (skipn (Z.to_nat pos) data) in
        len payload = length /\
        step_recv cfg st now data =
          handle_packet cfg (incr_packets_seen st) now b0 offset length payload)).
Proof.
  split.
  - intros data H. unfold step_recv. rewrite (proj2 (Z.ltb_lt _ _) H). reflexivity.
  - intros b0 b1 b2 b3 o0 o1 o2 o3 l0 l1 rest data offset length pos.
    assert (Hlen : len data = 10 + len rest)
      by (unfold data; rewrite len_app; reflexivity).
    assert (Hoff : be_uint (py_slice data 4 8) = offset)
      by (unfold offset, be_uint, py_slice; simpl; ring).
    assert (Hl : be_uint (py_slice data 8 10) = length)
      by (unfold length, be_uint, py_slice; simpl; ring).
    assert (Hl0 : 0 <= length)
      by (unfold length; pose proof (byte_val_range l0); pose proof (byte_val_range l1); lia).
    pose proof (len_nonneg rest).
    assert (Hstep : step_recv cfg st now data =
      if Z.land (byte_val b0) 16 =? 0 then
        (let st' := incr_packets_seen st in
         let payload := py_slice data 10 (10 + length) in
         if negb (len payload =? length) then Continue st'
         else handle_packet cfg st' now b0 offset length payload)
      else
        (if 14 <=? len data then
          (let st' := incr_packets_seen st in
           let payload := py_slice data 14 (14 + length) in
           if negb (len payload =? length) then Continue st'
           else handle_packet cfg st' now b0 offset length payload)
         else Continue st)).
    { unfold step_recv. replace (len data <? 10) with false by (symmetry; apply Z.ltb_ge; lia).
      rewrite Hoff, Hl. simpl nth.
      destruct (Z.land (byte_val b0) 16 =? 0); simpl negb; cbv iota;
        [reflexivity|destruct (14 <=? len data); reflexivity]. }
    assert (Hpl : forall p, 0 <= p <= len data ->
      len (py_slice data p (p + length)) = Z.min length (len data - p)).
    { intros p Hp. unfold py_slice. replace (p + length - p) with length by lia.
      apply len_payload; lia. }
    assert (Hpay : forall p, py_slice data p (p + length) =
                             firstn (Z.to_nat length) (skipn (Z.to_nat p) data)).
    { intros p. unfold py_slice. do 2 f_equal. lia. }
    unfold pos. rewrite Hstep. clear Hstep.
    destruct (Z.land (byte_val b0) 16 =? 0); cbv zeta; (split; [|split]).
    + discriminate.
    + intros Hp Hfew. rewrite Hpl by lia.
      replace (Z.min length (len data - 10) =? length) with false
        by (symmetry; apply Z.eqb_neq; lia). reflexivity.
    + intros Henough. rewrite Hpay. split.
      * rewrite len_payload by lia. lia.
      * rewrite <- Hpay, Hpl by lia.
        replace (Z.min length (len data - 10) =? length) with true
          by (symmetry; apply Z.eqb_eq; lia). reflexivity.
    + intros _ Hshort. rewrite (proj2 (Z.leb_gt _ _) Hshort). reflexivity.
    + intros Hp Hfew. rewrite (proj2 (Z.leb_le _ _) Hp), Hpl by lia.
      replace (Z.min length (len data - 14) =? length) with false
        by (symmetry; apply Z.eqb_neq; lia). reflexivity.
    + intros Henough. rewrite (proj2 (Z.leb_le 14 (len data))) by lia. split.
      * rewrite len_payload by lia. lia.
      * rewrite Hpl, Hpay by lia.
        replace (Z.min length (len data - 14) =? length) with true
          by (symmetry; apply Z.eqb_eq; lia). reflexivity.
Qed.

(** C6 as stated fails: a 10-byte datagram whose length field is 5 is
    dropped for its missing payload, but only after [packets_seen] was
    incremented, so the session changes. *)
Lemma payload_mismatch_mutates :
  step cfg1 init_session (Recv 0 (ddp x40 0 5 [])) = Continue (incr_packets_seen init_session) /\
  incr_packets_seen init_session <> init_session.
Proof.
  split; [vm_compute; reflexivity|]. intros H. apply (f_equal packets_seen) in H. discriminate.
Qed.

Lemma emit_frame_exit cfg st now out :
  emit_frame cfg st now = Exit out ->
  (exists secs, seconds_to_capture cfg = Some secs) /\ exists bs, out = output st ++ [Append bs].
Proof.
  unfold emit_frame.
  destruct (frame_parts _ _ _); [|discriminate].
  destruct (start_time st) as [t0|]; [|discriminate].
  destruct (py_time_ms _); [|discriminate].
  destruct (to_bytes_le _ _); [|discriminate].
  destruct (_ && _); [discriminate|].
  destruct (duration_reached cfg t0 now) eqn:Hd; [|discriminate].
  destruct (now - t0 =? 0); [discriminate|].
  intros H. inversion H; subst. split; [|eauto].
  unfold duration_reached in Hd. destruct (seconds_to_capture cfg); [eauto|discriminate].
Qed.

Lemma capture_exit cfg st now offset length payload out :
  capture cfg st now offset length payload = Exit out ->
  (exists secs, seconds_to_capture cfg = Some secs) /\ exists pre bs, out = pre ++ [Append bs].
Proof.
  unfold capture.
  destruct (write_payload _ _ _ _) as [[st'|]|]; try discriminate.
  destruct (all_full_check _ _ _) as [[|]|]; try discriminate.
  intros H. apply emit_frame_exit in H as [Hs [bs Hbs]]. eauto.
Qed.

Lemma step_recv_exit cfg st now data out :
  step_recv cfg st now data = Exit out ->
  (exists secs, seconds_to_capture cfg = Some secs) /\ exists pre bs, out = pre ++ [Append bs].
Proof.
  unfold step_recv. destruct (len data <? 10); [discriminate|].
  destruct (if negb _ then _ else _) as [pos|]; [|discriminate].
  destruct (negb _); [discriminate|].
  unfold handle_packet. destruct (discover _ _ _ _ _) as [st1|]; [|discriminate].
  unfold skip_or_capture. destruct (_ && _); [discriminate|].
  destruct (collecting _); [apply capture_exit|discriminate].
Qed.

(** What a step does to [last_frame_time]. *)
Lemma emit_frame_last cfg st now st1 :
  emit_frame cfg st now = Continue st1 ->
  is_beginning st1 = is_beginning st /\
  last_frame_time st1 = Some now /\ exists r, output st1 = output st ++ [Append r].
Proof.
  unfold emit_frame.
  destruct (frame_parts _ _ _); [|discriminate].
  destruct (start_time st) as [t0|]; [|discriminate].
  destruct (py_time_ms _); [|discriminate].
  destruct (to_bytes_le _ _); [|discriminate].
  destruct (_ && _); [discriminate|].
  destruct (duration_reached cfg t0 now); [destruct (_ =? 0); discriminate|].
  intros H. inversion H; subst. simpl. split; [reflexivity|]. split; [reflexivity|].
  eexists. reflexivity.
Qed.

Lemma capture_last cfg st now offset length payload st1 :
  capture cfg st now offset length payload = Continue st1 ->
  is_beginning st1 = is_beginning st /\
  ((last_frame_time st1 = last_frame_time st /\ output st1 = output st) \/
  (last_frame_time st1 = Some now /\ exists r, output st1 = output st ++ [Append r])).
Proof.
  unfold capture.
  destruct (write_payload _ _ _ _) as [[st'|]|] eqn:Hw; try discriminate.
  - apply write_payload_fields in Hw as (_ & _ & Hb & _ & Hl & Ho & _).
    destruct (all_full_check _ _ _) as [[|]|]; try discriminate.
    + intros H. destruct (emit_frame_last _ _ _ _ H) as (Hb1 & H1 & r & Hr).
      split; [congruence|]. right.
      split; [exact H1|]. exists r. rewrite Hr, Ho. reflexivity.
    + intros H. inversion H; subst. auto.
  - intros H. inversion H; subst. auto.
Qed.

Lemma discover_last cfg st flags1 offset length st1 :
  discover cfg st flags1 offset length = Ok st1 ->
  last_frame_time st1 = last_frame_time st /\ is_beginning st1 = is_beginning st /\
  (output st1 = output st \/ exists hdr, output st1 = output st ++ [Create hdr]).
Proof.
  unfold discover.
  set (st0 := if negb (collecting st) && negb (Z.land (byte_val flags1) 1 =? 0)
              then learn_range st offset length else st).
  assert (K : is_beginning st0 = is_beginning st /\
              last_frame_time st0 = last_frame_time st /\ output st0 = output st)
    by (unfold st0; destruct (_ && _); repeat split).
  destruct K as (B0 & L0 & O0). clearbody st0.
  destruct (negb (collecting st0) && _).
  - unfold finalize. cbv zeta.
    destruct (py_max _); [|discriminate]. destruct (to_bytes_le _ _) as [hdr|]; [|discriminate].
    destruct (alloc_buffers _ _ _) as [[bufs fc]|]; [|discriminate].
    intros H. injection H as <-. simpl.
    split; [exact L0|]. split; [exact B0|]. right. exists hdr. rewrite O0. reflexivity.
  - intros H. injection H as <-. auto.
Qed.

(** [last_frame_time] changes only on a datagram: to its time when it is
    the first non-empty packet (capture begins) or when it completes a
    frame (a record is appended, after the header when the same packet
    ends discovery). *)
Lemma step_last cfg st ev st' :
  step cfg st ev = Continue st' ->
  last_frame_time st' = last_frame_time st \/
  exists now data, ev = Recv now data /\ last_frame_time st' = Some now /\
    ((is_beginning st = true /\ is_beginning st' = false) \/
     exists pre r, output st' = pre ++ [Append r] /\
       (pre = output st \/ exists hdr, pre = output st ++ [Create hdr])).
Proof.
  intros Hs. destruct ev as [now data|now]; simpl in Hs.
  2: { left. rewrite (on_timeout_continue _ _ _ Hs). reflexivity. }
  unfold step_recv in Hs. destruct (len data <? 10); [inversion Hs; subst; left; reflexivity|].
  destruct (if negb _ then _ else _) as [pos|]; [|inversion Hs; subst; left; reflexivity].
  destruct (negb _); [inversion Hs; subst; left; reflexivity|].
  unfold handle_packet in Hs.
  destruct (discover _ _ _ _ _) as [st1|] eqn:Hd; [|discriminate].
  apply discover_last in Hd as (L1 & B1 & O1). simpl in L1, B1, O1.
  unfold skip_or_capture in Hs.
  destruct (is_beginning st1 && is_empty_bytearray _).
  { inversion Hs; subst. left. exact L1. }
  destruct (is_beginning st1) eqn:Hb1.
  - right. exists now, data. split; [reflexivity|].
    change (collecting (begin_capture st1 now)) with (collecting st1) in Hs.
    destruct (collecting st1).
    + destruct (capture_last _ _ _ _ _ _ _ Hs) as [Hb' [[Hl _]|[Hl _]]].
      * split; [exact Hl|]. left. split; [congruence|exact Hb'].
      * split; [exact Hl|]. left. split; [congruence|exact Hb'].
    + inversion Hs; subst. split; [reflexivity|]. left. split; [congruence|reflexivity].
  - destruct (collecting st1).
    + destruct (capture_last _ _ _ _ _ _ _ Hs) as [_ [[Hl _]|[Hl [r Hr]]]].
      * left. rewrite Hl. exact L1.
      * right. exists now, data. split; [reflexivity|]. split; [exact Hl|].
        right. exists (output st1), r. split; [exact Hr|].
        destruct O1 as [O1|[hdr O1]]; [left; exact O1|right; exists hdr; exact O1].
    + inversion Hs; subst. left. exact L1.
Qed.

(** ** C7 (as the code has it): the idle timeout.
    In a reachable session, a timeout of [recvfrom] at least five seconds
    after [last_frame_time] [l] ends the session as soon as capture has
    begun ([collecting] and not [is_beginning]), whatever the number of
    frames written.  [start_time] is then some [t0], and the session
    raises [ZeroDivisionError] (the rate computation) exactly when frames
    were written and [l = t0]; otherwise, in particular with no frame
    written, it exits.  In every other case the timeout leaves the session
    as it is.  A received datagram never ends the session through
    idleness: it ends it normally only through the duration limit, right
    after a frame record.  [last_frame_time] changes only on a datagram,
    to its time, when it is the first non-empty packet (capture begins) or
    when it completes a frame (a record is appended). *)
Theorem idle_timeout_rule cfg st :
  0 < number_of_strings cfg -> reachable cfg st ->
  (forall now l,
     collecting st = true -> is_beginning st = false ->
     last_frame_time st = Some l -> 5000000 <= now - l ->
     exists t0, start_time st = Some t0 /\
     (0 < frames_written st /\ l = t0 ->
        on_timeout st now = Crash ZeroDivisionError (output st)) /\
     (frames_written st = 0 \/ l <> t0 -> on_timeout st now = Exit (output st)) /\
     (on_timeout st now = Exit (output st) \/
      on_timeout st now = Crash ZeroDivisionError (output st))) /\
  (forall now,
     (collecting st = false \/ is_beginning st = true \/
      forall l, last_frame_time st = Some l -> now - l < 5000000) ->
     on_timeout st now = Continue st) /\
  (forall now data out,
     step cfg st (Recv now data) = Exit out ->
     (exists secs, seconds_to_capture cfg = Some secs) /\
     exists pre bs, out = pre ++ [Append bs]) /\
  (forall ev st', step cfg st ev = Continue st' ->
     last_frame_time st' = last_frame_time st \/
     exists now data, ev = Recv now data /\ last_frame_time st' = Some now /\
       ((is_beginning st = true /\ is_beginning st' = false) \/
        exists pre r, output st' = pre ++ [Append r] /\
          (pre = output st \/ exists hdr, pre = output st ++ [Create hdr]))).
Proof.
  intros Hs R. pose proof (reachable_inv _ _ Hs R) as I. split; [|split; [|split]].
  - intros now l Hc Hb Hl Hge.
    destruct (inv_begin _ _ I Hb) as [[t0 Ht0] _]. exists t0. split; [exact Ht0|].
    unfold on_timeout. rewrite Hc, Hb, Hl, Ht0. simpl.
    rewrite (proj2 (Z.leb_le _ _) Hge). split; [|split].
    + intros [Hf ->]. rewrite (proj2 (Z.ltb_lt _ _) Hf), Z.sub_diag. reflexivity.
    + intros Hcase. destruct (0 <? frames_written st) eqn:Hf; [|reflexivity].
      destruct (l - t0 =? 0) eqn:Hd; [|reflexivity].
      apply Z.ltb_lt in Hf. apply Z.eqb_eq in Hd. lia.
    + destruct (_ && _); auto.
  - intros now Hcase. unfold on_timeout.
    destruct (collecting st) eqn:Hc; [|reflexivity].
    destruct (is_beginning st) eqn:Hb; [reflexivity|]. simpl.
    destruct (last_frame_time st) as [l|]; [|reflexivity].
    destruct Hcase as [Hcase|[Hcase|Hcase]]; [discriminate|discriminate|].
    specialize (Hcase l eq_refl).
    rewrite (proj2 (Z.leb_gt _ _) Hcase). reflexivity.
  - intros now data out. apply step_recv_exit.
  - intros ev st'. apply step_last.
Qed.

Lemma partial_then_idle_first :
  run cfg1 init_session [Recv 0 (ddp x41 3 3 (px 3))] =
    Continue (session_after cfg1 [Recv 0 (ddp x41 3 3 (px 3))]).
Proof. vm_compute. reflexivity. Qed.

Lemma idle_timeout_rule_witness :
  0 < number_of_strings cfg1 /\
  reachable cfg1 (session_after cfg1 [Recv 0 (ddp x41 3 3 (px 3))]) /\
  on_timeout (session_after cfg1 [Recv 0 (ddp x41 3 3 (px 3))]) 5000000 =
    Exit [Create [x02; x00]].
Proof.
  assert (R : reachable cfg1 (session_after cfg1 [Recv 0 (ddp x41 3 3 (px 3))]))
    by exact (run_reachable cfg1 init_session _ _ (reach_init cfg1) partial_then_idle_first).
  split; [reflexivity|]. split; [exact R|].
  destruct (idle_timeout_rule cfg1 _ eq_refl R) as [Hfire _].
  destruct (Hfire 5000000 0) as (t0 & _ & _ & H0 & _); [vm_compute; reflexivity
    |vm_compute; reflexivity|vm_compute; reflexivity|lia|].
  rewrite H0 by (left; vm_compute; reflexivity). vm_compute. reflexivity.
Defined.

(** C7 as stated fails: the timeout ends a session in which no frame was
    ever completed.  A single string [(0, 6)] receives only bytes [3..5];
    five seconds later the session exits with [frames_written = 0]. *)
Lemma idle_exit_without_frames :
  frames_written (session_after cfg1 [Recv 0 (ddp x41 3 3 (px 3))]) = 0 /\
  run cfg1 init_session partial_then_idle = Exit [Create [x02; x00]].
Proof. split; vm_compute; reflexivity. Qed.

Lemma is_empty_bytearray_spec p :
  is_empty_bytearray p = true <-> Forall (fun b => b = x00) p.
Proof.
  unfold is_empty_bytearray. rewrite Nat.eqb_eq.
  induction p as [|a p IH]; simpl.
  - split; [constructor|reflexivity].
  - destruct (Byte.byte_eq_dec a x00) as [->|Hne].
    + rewrite Forall_cons_iff. split; [intros H; split; [reflexivity|apply IH; lia]|].
      intros [_ H]. apply IH in H. lia.
    + pose proof (count_occ_bound Byte.byte_eq_dec x00 p) as Hbound.
      split; [lia|]. intros Hall. inversion Hall. contradiction.
Qed.

Lemma finalize_is_beginning st st1 :
  finalize st = Ok st1 -> is_beginning st1 = is_beginning st.
Proof.
  unfold finalize. destruct (py_max _); [|discriminate].
  destruct (to_bytes_le _ _); [|discriminate].
  destruct (alloc_buffers _ _ _) as [[? ?]|]; [|discriminate].
  intros H. inversion H. reflexivity.
Qed.

Lemma discover_is_beginning cfg st flags1 offset length st1 :
  discover cfg st flags1 offset length = Ok st1 -> is_beginning st1 = is_beginning st.
Proof.
  unfold discover.
  assert (Hl : is_beginning (if negb (collecting st) && negb (Z.land (byte_val flags1) 1 =? 0)
                             then learn_range st offset length else st) = is_beginning st)
    by (destruct (_ && _); reflexivity).
  destruct (_ && (_ <=? _)).
  - intros H. rewrite (finalize_is_beginning _ _ H). exact Hl.
  - intros H. inversion H; subst. exact Hl.
Qed.

Lemma emit_frame_is_beginning cfg st now st1 :
  emit_frame cfg st now = Continue st1 -> is_beginning st1 = is_beginning st.
Proof.
  unfold emit_frame.
  destruct (frame_parts _ _ _); [|discriminate].
  destruct (start_time st); [|discriminate].
  destruct (py_time_ms _); [|discriminate].
  destruct (to_bytes_le _ _); [|discriminate].
  destruct (_ && _); [discriminate|].
  destruct (duration_reached _ _ _); [destruct (_ =? 0); discriminate|].
  intros H. inversion H. reflexivity.
Qed.

Lemma capture_is_beginning cfg st now offset length payload st1 :
  capture cfg st now offset length payload = Continue st1 -> is_beginning st1 = is_beginning st.
Proof.
  unfold capture.
  destruct (write_payload _ _ _ _) as [[st'|]|] eqn:Hw; try discriminate.
  - apply write_payload_fields in Hw as (_ & _ & Hb & _).
    destruct (all_full_check _ _ _) as [[|]|]; try discriminate.
    + intros H. rewrite (emit_frame_is_beginning _ _ _ _ H). exact Hb.
    + intros H. inversion H; subst. exact Hb.
  - intros H. inversion H; subst. reflexivity.
Qed.

Lemma step_is_beginning cfg st ev st' :
  step cfg st ev = Continue st' -> is_beginning st = false -> is_beginning st' = false.
Proof.
  intros Hs Hb. destruct ev as [now data|now]; simpl in Hs.
  - unfold step_recv in Hs. destruct (len data <? 10); [inversion Hs; subst; exact Hb|].
    destruct (if negb _ then _ else _) as [pos|]; [|inversion Hs; subst; exact Hb].
    destruct (negb _); [inversion Hs; subst; exact Hb|].
    unfold handle_packet in Hs.
    destruct (discover _ _ _ _ _) as [st1|] eqn:Hd; [|discriminate].
    apply discover_is_beginning in Hd. simpl in Hd. rewrite Hb in Hd.
    unfold skip_or_capture in Hs. rewrite Hd in Hs. simpl in Hs.
    destruct (collecting st1).
    + rewrite (capture_is_beginning _ _ _ _ _ _ _ Hs). exact Hd.
    + inversion Hs; subst. exact Hd.
  - rewrite (on_timeout_continue _ _ _ Hs). exact Hb.
Qed.

(** ** C9 (as the code has it): skipping leading empty packets.
    The skip phase is the initial one, not one entered at finalisation:
    a session starts with [is_beginning] set, during discovery already.
    While [is_beginning] is set, a packet whose payload is all zero bytes
    only increments [empty_frames]; the first packet with a non-zero byte
    clears [is_beginning], sets [start_time] and [last_frame_time] to
    [now], and is handed to capture only when discovery has already
    finished.  Once cleared, [is_beginning] stays cleared and no packet is
    skipped again.  The skip test (lines 170-178) has no [collecting]
    guard, although the message of line 165 announces the wait for
    non-empty packets only once discovery has finished. *)
Theorem leading_empty_skip cfg :
  is_beginning init_session = true /\ collecting init_session = false /\
  (forall p, is_empty_bytearray p = true <-> Forall (fun b => b = x00) p) /\
  (forall st now offset length payload,
     is_beginning st = true -> is_empty_bytearray payload = true ->
     skip_or_capture cfg st now offset length payload = Continue (count_empty st) /\
     empty_frames (count_empty st) = empty_frames st + 1 /\
     frames_written (count_empty st) = frames_written st /\
     start_time (count_empty st) = start_time st /\
     last_frame_time (count_empty st) = last_frame_time st /\
     buffers (count_empty st) = buffers st /\
     filled_count (count_empty st) = filled_count st /\
     output (count_empty st) = output st) /\
  (forall st now offset length payload,
     is_beginning st = true -> is_empty_bytearray payload = false ->
     skip_or_capture cfg st now offset length payload =
       (if collecting st then capture cfg (begin_capture st now) now offset length payload
        else Continue (begin_capture st now)) /\
     is_beginning (begin_capture st now) = false /\
     start_time (begin_capture st now) = Some now /\
     last_frame_time (begin_capture st now) = Some now) /\
  (forall st now offset length payload,
     is_beginning st = false ->
     skip_or_capture cfg st now offset length payload =
       if collecting st then capture cfg st now offset length payload else Continue st) /\
  (forall st ev st',
     step cfg st ev = Continue st' -> is_beginning st = false -> is_beginning st' = false).
Proof.
  split; [reflexivity|]. split; [reflexivity|]. split; [exact is_empty_bytearray_spec|].
  split; [|split; [|split]].
  - intros st now offset length payload Hb He.
    unfold skip_or_capture. rewrite Hb, He. simpl. repeat split.
  - intros st now offset length payload Hb He.
    unfold skip_or_capture. rewrite Hb, He. simpl. repeat split.
  - intros st now offset length payload Hb.
    unfold skip_or_capture. rewrite Hb. reflexivity.
  - exact (step_is_beginning cfg).
Qed.

(** C9 fails on the code: the first non-zero packet arrives during
    discovery; it clears [is_beginning] and fixes [start_time = 0] but is
    not captured.  The all-zero packet that completes discovery is then
    captured (string 2 counts 3 bytes) instead of being skipped, because
    the skip test is not restricted to [collecting] sessions. *)
Lemma empty_skip_phase_fails :
  let st1 := session_after cfg2 [Recv 0 (ddp x41 0 3 (px 3))] in
  let st2 := session_after cfg2 nonzero_during_discovery in
  run cfg2 init_session nonzero_during_discovery = Continue st2 /\
  collecting st1 = false /\ is_beginning st1 = false /\ start_time st1 = Some 0 /\
  collecting st2 = true /\ filled_count st2 = [(1, 0); (2, 3)] /\ empty_frames st2 = 0.
Proof. vm_compute. repeat split. Qed.




Lemma fit_cases mb b :
  0 <= mb ->
  (len b = mb -> fit (Some mb) b = b) /\
  (len b < mb -> fit (Some mb) b = b ++ repeat x00 (Z.to_nat (mb - len b))) /\
  (mb < len b -> fit (Some mb) b = firstn (Z.to_nat mb) b) /\
  len (fit (Some mb) b) = mb.
Proof.
  intros Hmb. unfold fit. split; [|split; [|split]].
  - intros Heq. rewrite (proj2 (Z.ltb_ge _ _)) by lia.
    apply firstn_all2. unfold len in Heq. lia.
  - intros Hlt. rewrite (proj2 (Z.ltb_lt _ _) Hlt). reflexivity.
  - intros Hlt. rewrite (proj2 (Z.ltb_ge _ _)) by lia. reflexivity.
  - destruct (Z.ltb_spec (len b) mb).
    + rewrite len_app, len_repeat. lia.
    + unfold len in *. rewrite length_firstn. lia.
Qed.






















(** * Further properties of the capture loop *)

(** ** Little-endian encoding *)

Lemma byte_val_of_Z v : byte_val (byte_of_Z v) = v mod 256.
Proof.
  pose proof (Z.mod_pos_bound v 256 ltac:(lia)) as Hb.
  unfold byte_of_Z. destruct (Byte.of_N (Z.to_N (v mod 256))) as [b|] eqn:H.
  - apply Byte.to_of_N in H. unfold byte_val. rewrite H. lia.
  - apply Byte.of_N_None_iff in H. lia.
Qed.

Lemma le_digits_length n v : length (le_digits n v) = n.
Proof. revert v. induction n as [|n IH]; intros v; simpl; [reflexivity|]. rewrite IH. reflexivity. Qed.

Lemma le_digits_value n v : 0 <= v < 256 ^ Z.of_nat n -> le_value (le_digits n v) = v.
Proof.
  revert v. induction n as [|n IH]; intros v Hv.
  - simpl in *. lia.
  - change (le_value (le_digits (S n) v))
      with (byte_val (byte_of_Z v) + 256 * le_value (le_digits n (v / 256))).
    rewrite Nat2Z.inj_succ, Z.pow_succ_r in Hv by lia.
    rewrite byte_val_of_Z, IH.
    + pose proof (Z.div_mod v 256 ltac:(lia)). lia.
    + split; [apply Z.div_pos; lia|]. apply Z.div_lt_upper_bound; lia.
Qed.

Lemma to_bytes_le_Some n v bs :
  to_bytes_le n v = Some bs -> length bs = n /\ le_value bs = v /\ 0 <= v < 256 ^ Z.of_nat n.
Proof.
  unfold to_bytes_le. destruct (Z.leb_spec 0 v) as [H0|H0], (Z.ltb_spec v (256 ^ Z.of_nat n)) as [H1|H1]; simpl;
    try discriminate.
  intros Heq. inversion Heq; subst. split; [apply le_digits_length|].
  split; [apply le_digits_value|]; lia.
Qed.

(** ** The output file *)

Lemma insert_sorted_length x l : length (insert_sorted x l) = S (length l).
Proof. induction l as [|y l IH]; simpl; [reflexivity|]. destruct (x <=? y); simpl; auto. Qed.

Lemma sorted_keys_length l : length (sorted_keys l) = length l.
Proof. induction l as [|x l IH]; simpl; [reflexivity|]. rewrite insert_sorted_length. auto. Qed.

Lemma frame_parts_len mb ns bufs parts :
  0 <= mb -> frame_parts (Some mb) ns bufs = Some parts ->
  len (concat parts) = Z.of_nat (length ns) * mb.
Proof.
  intros Hmb. revert parts. induction ns as [|n ns IH]; intros parts; cbn [frame_parts].
  - intros H. inversion H. reflexivity.
  - destruct (lookup n bufs) as [b|]; [|discriminate].
    destruct (frame_parts _ ns bufs) as [ps|] eqn:Hp; [|discriminate].
    intros H. inversion H; subst. cbn [concat length]. rewrite len_app, (IH ps eq_refl).
    destruct (fit_cases mb b Hmb) as (_ & _ & _ & Hl). unfold fit in Hl. cbv beta iota in Hl. lia.
Qed.

Lemma set_length {A} k (v : A) m : In k (map fst m) -> length (set k v m) = length m.
Proof.
  intros Hk. rewrite <- (length_map fst (set k v m)), <- (length_map fst m).
  rewrite keys_set_present by exact Hk. reflexivity.
Qed.

Lemma write_payload_buffers_length st offset length payload st1 :
  write_payload st offset length payload = Ok (Some st1) ->
  Datatypes.length (buffers st1) = Datatypes.length (buffers st).
Proof.
  unfold write_payload.
  destruct (find_range _ _ _) as [[n [s e]]|]; [|discriminate].
  destruct (lookup n (buffers st)) as [b|] eqn:Hb; [|discriminate].
  destruct (lookup n (filled_count st)); [|discriminate].
  intros H. inversion H; subst. simpl. apply set_length.
  apply lookup_In in Hb. apply (in_map fst) in Hb. exact Hb.
Qed.

(** What a frame emission does to the output. *)
Lemma emit_frame_output cfg st now mb :
  max_bytes st = Some mb -> 0 <= mb -> len (buffers st) = number_of_strings cfg ->
  (outcome_output (emit_frame cfg st now) = output st \/
   exists r, len r = 4 + number_of_strings cfg * mb /\
     outcome_output (emit_frame cfg st now) = output st ++ [Append r]) /\
  (forall st', emit_frame cfg st now = Continue st' ->
     exists r, len r = 4 + number_of_strings cfg * mb /\
       output st' = output st ++ [Append r] /\ frames_written st' = frames_written st + 1 /\
       strings_ranges st' = strings_ranges st /\ max_bytes st' = max_bytes st /\
       collecting st' = collecting st /\ Datatypes.length (buffers st') = Datatypes.length (buffers st)).
Proof.
  intros Hmb Hmb0 HS. unfold emit_frame. rewrite Hmb.
  destruct (frame_parts _ _ _) as [parts|] eqn:Hp; [|split; [left; reflexivity|discriminate]].
  destruct (start_time st) as [t0|]; [|split; [left; reflexivity|discriminate]].
  destruct (py_time_ms _); [|split; [left; reflexivity|discriminate]].
  destruct (to_bytes_le 4 _) as [th|] eqn:Ht; [|split; [left; reflexivity|discriminate]].
  apply to_bytes_le_Some in Ht as [Hth _].
  assert (Hr : len (th ++ concat parts) = 4 + number_of_strings cfg * mb).
  { rewrite len_app, (frame_parts_len _ _ _ _ Hmb0 Hp), sorted_keys_length, length_map.
    unfold len at 1. rewrite Hth. unfold len in HS. rewrite HS. lia. }
  destruct (_ && _); [split; [right; eauto|discriminate]|].
  destruct (duration_reached _ _ _); [destruct (_ =? 0); (split; [right; eauto|discriminate])|].
  split; [right; eauto|]. intros st' H. inversion H; subst. simpl.
  exists (th ++ concat parts). repeat split; auto.
  unfold zero_buffers. apply length_map.
Qed.

(** What the capture of a decoded packet does to the output. *)
Lemma capture_output cfg st now offset length payload mb :
  max_bytes st = Some mb -> 0 <= mb -> len (buffers st) = number_of_strings cfg ->
  (outcome_output (capture cfg st now offset length payload) = output st \/
   exists r, len r = 4 + number_of_strings cfg * mb /\
     outcome_output (capture cfg st now offset length payload) = output st ++ [Append r]) /\
  (forall st', capture cfg st now offset length payload = Continue st' ->
     strings_ranges st' = strings_ranges st /\ max_bytes st' = max_bytes st /\
     collecting st' = collecting st /\
     Datatypes.length (buffers st') = Datatypes.length (buffers st) /\
     ((output st' = output st /\ frames_written st' = frames_written st) \/
      exists r, len r = 4 + number_of_strings cfg * mb /\
        output st' = output st ++ [Append r] /\ frames_written st' = frames_written st + 1)).
Proof.
  intros Hmb Hmb0 HS. unfold capture.
  destruct (write_payload st offset length payload) as [[st1|]|e out] eqn:Hw.
  - pose proof (write_payload_fields _ _ _ _ _ Hw) as (Hr1 & Hc1 & _ & _ & _ & Ho1 & Hm1 & Hf1).
    pose proof (write_payload_buffers_length _ _ _ _ _ Hw) as Hl1.
    assert (HS1 : len (buffers st1) = number_of_strings cfg) by (unfold len in *; rewrite Hl1; exact HS).
    destruct (all_full_check _ _ _) as [[|]|].
    + destruct (emit_frame_output cfg st1 now mb) as [Ho He]; [congruence|exact Hmb0|exact HS1|].
      split; [rewrite <- Ho1; exact Ho|].
      intros st' H. destruct (He st' H) as (r & Hr & Ho' & Hf' & Hr' & Hm' & Hc' & Hl').
      repeat split; try congruence. right. exists r. repeat split; congruence.
    + split; [left; simpl; congruence|]. intros st' H. inversion H; subst.
      repeat split; auto.
    + split; [left; simpl; congruence|discriminate].
  - split; [left; reflexivity|]. intros st' H. inversion H; subst. repeat split; auto.
  - apply write_payload_raise_output in Hw. subst. split; [left; reflexivity|discriminate].
Qed.

Lemma file_layout_append cfg ml out r :
  file_layout cfg ml out ->
  len r = 4 + number_of_strings cfg * (ml / CHANNELS_PER_PIXEL * CHANNELS_PER_PIXEL) ->
  file_layout cfg ml (out ++ [Append r]).
Proof.
  intros (hdr & recs & -> & Hh & Hv & Hr) Hlr. exists hdr, (recs ++ [r]).
  split; [rewrite map_app; reflexivity|]. split; [exact Hh|]. split; [exact Hv|].
  apply Forall_app. split; [exact Hr|constructor; [exact Hlr|constructor]].
Qed.

Lemma file_ok_transfer cfg st st' :
  file_ok cfg st -> collecting st' = collecting st -> strings_ranges st' = strings_ranges st ->
  max_bytes st' = max_bytes st -> output st' = output st ->
  frames_written st' = frames_written st -> file_ok cfg st'.
Proof.
  intros F Hc Hr Hm Ho Hf Hc'. rewrite Hc in Hc'.
  destruct (F Hc') as (ml & hdr & recs & H1 & H2 & H3 & H4 & H5 & H6 & H7).
  exists ml, hdr, recs. rewrite Hr, Hm, Ho, Hf. auto 10.
Qed.

Lemma file_ok_append cfg st st' r :
  file_ok cfg st -> collecting st = true -> collecting st' = true ->
  strings_ranges st' = strings_ranges st -> max_bytes st' = max_bytes st ->
  output st' = output st ++ [Append r] -> frames_written st' = frames_written st + 1 ->
  (forall mb, max_bytes st = Some mb -> len r = 4 + number_of_strings cfg * mb) ->
  file_ok cfg st'.
Proof.
  intros F Hc Hc' Hr Hm Ho Hf Hlr _.
  destruct (F Hc) as (ml & hdr & recs & H1 & H2 & H3 & H4 & H5 & H6 & H7).
  exists ml, hdr, (recs ++ [r]). rewrite Hr, Hm, Ho, Hf, H3.
  split; [exact H1|]. split; [exact H2|]. split; [rewrite map_app; reflexivity|].
  split; [exact H4|]. split; [exact H5|]. split.
  - apply Forall_app. split; [exact H6|]. constructor; [exact (Hlr _ H2)|constructor].
  - rewrite H7, len_app, len_one. reflexivity.
Qed.

Lemma output_of_state cfg st : inv cfg st -> file_ok cfg st -> output_well_formed cfg (output st).
Proof.
  intros I F. destruct (collecting st) eqn:Hc.
  - destruct (F Hc) as (ml & hdr & recs & _ & _ & H3 & H4 & H5 & H6 & _).
    right; right. exists ml, hdr, recs. auto.
  - left. exact (proj1 (proj2 (proj2 (inv_disc _ _ I Hc)))).
Qed.

Lemma finalize_output cfg st :
  output st = [] ->
  (forall st1, finalize st = Ok st1 -> file_ok cfg st1) /\
  (forall e out, finalize st = Raise e out -> output_well_formed cfg out).
Proof.
  intros Hout. unfold finalize.
  destruct (py_max _) as [ml|] eqn:Hm; [|split; [discriminate|intros e out H; inversion H; left; exact Hout]].
  destruct (to_bytes_le 2 _) as [hdr|] eqn:Ht;
    [|split; [discriminate|intros e out H; inversion H; right; left; rewrite Hout; reflexivity]].
  apply to_bytes_le_Some in Ht as (Hhl & Hhv & _).
  assert (Hh : len hdr = 2) by (unfold len; rewrite Hhl; reflexivity).
  destruct (alloc_buffers _ _ _) as [[bufs fc]|].
  - split; [|discriminate]. intros st1 H. inversion H; subst st1. intros _.
    exists ml, hdr, []. simpl. rewrite Hout. auto 10.
  - split; [discriminate|]. intros e out H. inversion H; subst out. right; right.
    exists ml, hdr, []. rewrite Hout. auto.
Qed.

Lemma discover_output cfg st flags1 offset length :
  inv cfg st -> file_ok cfg st ->
  (forall st1, discover cfg st flags1 offset length = Ok st1 -> file_ok cfg st1) /\
  (forall e out, discover cfg st flags1 offset length = Raise e out -> output_well_formed cfg out).
Proof.
  intros I F. destruct (collecting st) eqn:Hc.
  - rewrite (discover_collecting _ _ _ _ _ Hc).
    split; [intros st1 H; inversion H; subst; exact F|discriminate].
  - unfold discover. rewrite Hc. simpl negb. rewrite andb_true_l.
    set (st1 := if negb (Z.land (byte_val flags1) 1 =? 0)
                then learn_range st offset length else st).
    assert (D : disc_shape cfg st1).
    { unfold st1. destruct (negb _); [apply disc_shape_learn|apply disc_shape_of_inv]; auto. }
    destruct D as (_ & _ & _ & Hc1 & _ & _ & Hout1 & _).
    rewrite Hc1. simpl negb. rewrite andb_true_l.
    destruct (_ <=? _).
    + exact (finalize_output cfg st1 Hout1).
    + split; [|discriminate]. intros st2 H. inversion H; subst st2.
      intros Hc2. congruence.
Qed.

Lemma skip_or_capture_output cfg st now offset length payload :
  inv cfg st -> file_ok cfg st ->
  output_well_formed cfg (outcome_output (skip_or_capture cfg st now offset length payload)) /\
  (forall st', skip_or_capture cfg st now offset length payload = Continue st' -> file_ok cfg st').
Proof.
  intros I F.
  assert (Hcount : file_ok cfg (count_empty st))
    by (apply (file_ok_transfer _ _ _ F); reflexivity).
  unfold skip_or_capture.
  destruct (is_beginning st && is_empty_bytearray payload).
  { split; [exact (output_of_state _ _ (inv_count_empty _ _ I) Hcount)|].
    intros st' H. inversion H; subst. exact Hcount. }
  set (st2 := if is_beginning st then begin_capture st now else st).
  assert (I2 : inv cfg st2)
    by (unfold st2; destruct (is_beginning st); [apply inv_begin_capture|]; exact I).
  assert (F2 : file_ok cfg st2)
    by (unfold st2; destruct (is_beginning st); [apply (file_ok_transfer _ _ _ F)|]; auto).
  destruct (collecting st2) eqn:Hc2.
  - destruct (inv_coll _ _ I2 Hc2) as (HS & Hbuf & _ & [mb [Hmb Hmb0]] & _).
    assert (HSb : len (buffers st2) = number_of_strings cfg)
      by (unfold len in *; rewrite <- (Forall2_length Hbuf); exact HS).
    destruct (capture_output cfg st2 now offset length payload mb Hmb Hmb0 HSb) as [Ho Hk].
    destruct (F2 Hc2) as (ml & hdr & recs & _ & Hmb' & H3 & H4 & H5 & H6 & _).
    rewrite Hmb in Hmb'. injection Hmb' as Hmb'. subst mb.
    split.
    + destruct Ho as [Ho|(r & Hr & Ho)]; rewrite Ho.
      * right; right. exists ml, hdr, recs. auto.
      * right; right. exists ml. apply file_layout_append; [exists hdr, recs; auto|exact Hr].
    + intros st' H. destruct (Hk st' H) as (Hr' & Hm' & Hc' & _ & [[Ho' Hf']|(r & Hr & Ho' & Hf')]).
      * apply (file_ok_transfer _ _ _ F2); auto.
      * apply (file_ok_append _ _ _ r F2 Hc2); try congruence;
          intros mb Hmb2; rewrite Hmb in Hmb2; injection Hmb2 as <-; exact Hr.
  - split; [exact (output_of_state _ _ I2 F2)|]. intros st' H. inversion H; subst. exact F2.
Qed.

Lemma step_output cfg st ev :
  inv cfg st -> file_ok cfg st ->
  output_well_formed cfg (outcome_output (step cfg st ev)) /\
  (forall st', step cfg st ev = Continue st' -> file_ok cfg st').
Proof.
  intros I F. destruct ev as [now data|now]; simpl.
  - assert (Fi : file_ok cfg (incr_packets_seen st))
      by (apply (file_ok_transfer _ _ _ F); reflexivity).
    pose proof (inv_incr _ _ I) as Ii.
    unfold step_recv. destruct (len data <? 10).
    { split; [exact (output_of_state _ _ I F)|intros st' H; inversion H; subst; exact F]. }
    destruct (if negb _ then _ else _) as [pos|].
    2: { split; [exact (output_of_state _ _ I F)|intros st' H; inversion H; subst; exact F]. }
    destruct (negb _).
    { split; [exact (output_of_state _ _ Ii Fi)|intros st' H; inversion H; subst; exact Fi]. }
    unfold handle_packet.
    destruct (discover_output cfg _ (nth 0 data x00) (be_uint (py_slice data 4 8))
                (be_uint (py_slice data 8 10)) Ii Fi) as [Dok Draise].
    destruct (discover _ _ _ _ _) as [st1|e out] eqn:Hd.
    + apply skip_or_capture_output; [eapply discover_inv; eauto|exact (Dok _ eq_refl)].
    + split; [exact (Draise _ _ eq_refl)|discriminate].
  - rewrite on_timeout_output. split; [exact (output_of_state _ _ I F)|].
    intros st' H. apply on_timeout_continue in H. subst. exact F.
Qed.

Lemma reachable_file_ok cfg st :
  0 < number_of_strings cfg -> reachable cfg st -> file_ok cfg st.
Proof.
  intros Hs. induction 1 as [|st ev st' R IH Hstep].
  - intros Hc. discriminate.
  - exact (proj2 (step_output _ _ ev (reachable_inv _ _ Hs R) IH) st' Hstep).
Qed.

(** ** Fields a step keeps *)

Ltac split_matches H :=
  repeat match type of H with
  | context [match ?x with _ => _ end] => destruct x; try discriminate
  end.

Lemma write_payload_keeps st offset length payload st1 :
  write_payload st offset length payload = Ok (Some st1) ->
  strings_ranges st1 = strings_ranges st /\ next_assigned st1 = next_assigned st /\
  start st1 = start st /\ max_bytes st1 = max_bytes st /\ collecting st1 = collecting st /\
  is_beginning st1 = is_beginning st /\ start_time st1 = start_time st /\
  empty_frames st1 = empty_frames st /\ packets_seen st1 = packets_seen st.
Proof.
  unfold write_payload. intros H. split_matches H.
  injection H as <-. simpl. repeat split.
Qed.

Lemma emit_frame_keeps cfg st now st1 :
  emit_frame cfg st now = Continue st1 ->
  strings_ranges st1 = strings_ranges st /\ next_assigned st1 = next_assigned st /\
  start st1 = start st /\ max_bytes st1 = max_bytes st /\ collecting st1 = collecting st /\
  is_beginning st1 = is_beginning st /\ start_time st1 = start_time st /\
  empty_frames st1 = empty_frames st /\ packets_seen st1 = packets_seen st.
Proof.
  unfold emit_frame. cbv zeta. intros H. split_matches H.
  injection H as <-. simpl. repeat split.
Qed.

Lemma capture_keeps cfg st now offset length payload st1 :
  capture cfg st now offset length payload = Continue st1 ->
  strings_ranges st1 = strings_ranges st /\ next_assigned st1 = next_assigned st /\
  start st1 = start st /\ max_bytes st1 = max_bytes st /\ collecting st1 = collecting st /\
  is_beginning st1 = is_beginning st /\ start_time st1 = start_time st /\
  empty_frames st1 = empty_frames st /\ packets_seen st1 = packets_seen st.
Proof.
  unfold capture. intros H.
  destruct (write_payload st offset length payload) as [[st2|]|e out] eqn:Hw; try discriminate.
  - destruct (write_payload_keeps _ _ _ _ _ Hw) as (H1 & H2 & H3 & H4 & H5 & H6 & H7 & H8 & H9).
    destruct (all_full_check _ _ _) as [[|]|]; try discriminate.
    + destruct (emit_frame_keeps _ _ _ _ H) as (G1 & G2 & G3 & G4 & G5 & G6 & G7 & G8 & G9).
      repeat split; congruence.
    + injection H as <-. repeat split; assumption.
  - injection H as <-. repeat split.
Qed.

(** What [handle_packet] keeps: the packet counter always; the learned
    layout once collecting; the capture origin once started. *)
Lemma handle_packet_keeps cfg st now flags1 offset length payload st1 :
  handle_packet cfg st now flags1 offset length payload = Continue st1 ->
  packets_seen st1 = packets_seen st /\
  (collecting st = true ->
     strings_ranges st1 = strings_ranges st /\ next_assigned st1 = next_assigned st /\
     start st1 = start st /\ max_bytes st1 = max_bytes st /\ collecting st1 = true) /\
  (is_beginning st = false ->
     is_beginning st1 = false /\ start_time st1 = start_time st /\
     empty_frames st1 = empty_frames st).
Proof.
  unfold handle_packet, discover. intros H.
  set (st0 := if negb (collecting st) && negb (Z.land (byte_val flags1) 1 =? 0)
              then learn_range st offset length else st) in H.
  assert (K0 : packets_seen st0 = packets_seen st /\
               (collecting st = true -> st0 = st) /\
               collecting st0 = collecting st /\ is_beginning st0 = is_beginning st /\
               start_time st0 = start_time st /\ empty_frames st0 = empty_frames st).
  { unfold st0. destruct (collecting st) eqn:Hc; simpl.
    - repeat split. congruence.
    - destruct (negb (Z.land (byte_val flags1) 1 =? 0)); simpl; repeat split; intros; first [discriminate | assumption]. }
  destruct K0 as (P0 & C0 & Cc0 & B0 & T0 & E0).
  destruct (negb (collecting st0) && _) eqn:Hfin.
  - (* discovery finishes here: [collecting] was [False] *)
    assert (Hc : collecting st = false)
      by (rewrite <- Cc0; destruct (collecting st0); [discriminate|reflexivity]).
    unfold finalize in H.
    destruct (py_max _); [|discriminate]. destruct (to_bytes_le _ _); [|discriminate].
    destruct (alloc_buffers _ _ _) as [[bufs fc]|]; [|discriminate].
    set (st2 := {| strings_ranges := strings_ranges st0 |}) in H.
    assert (K : packets_seen st2 = packets_seen st /\ is_beginning st2 = is_beginning st /\
                start_time st2 = start_time st /\ empty_frames st2 = empty_frames st)
      by (unfold st2; simpl; repeat split; assumption).
    destruct K as (P2 & B2 & T2 & E2). clearbody st2.
    unfold skip_or_capture in H.
    destruct (is_beginning st2 && is_empty_bytearray payload) eqn:He.
    + injection H as <-. simpl. split; [exact P2|]. split; [intros; congruence|].
      intros Hb. rewrite B2, Hb in He. discriminate.
    + destruct (is_beginning st2) eqn:Hb2.
      * split; [|split; [intros; congruence|intros Hb; congruence]].
        destruct (collecting (begin_capture st2 now)).
        -- destruct (capture_keeps _ _ _ _ _ _ _ H) as (_ & _ & _ & _ & _ & _ & _ & _ & G9).
           simpl in G9. congruence.
        -- injection H as <-. simpl. exact P2.
      * destruct (collecting st2).
        -- destruct (capture_keeps _ _ _ _ _ _ _ H) as (_ & _ & _ & _ & _ & G6 & G7 & G8 & G9).
           split; [congruence|]. split; [intros; congruence|]. intros _. repeat split; congruence.
        -- injection H as <-. split; [exact P2|]. split; [intros; congruence|].
           intros _. repeat split; congruence.
  - cbv beta iota in H. clear Hfin. unfold skip_or_capture in H.
    destruct (is_beginning st0 && is_empty_bytearray payload) eqn:He.
    + injection H as <-. simpl. split; [exact P0|]. split.
      * intros Hc. rewrite (C0 Hc). repeat split. exact Hc.
      * intros Hb. rewrite B0, Hb in He. discriminate.
    + destruct (is_beginning st0) eqn:Hb0.
      * split; [|split].
        -- destruct (collecting (begin_capture st0 now)).
           ++ destruct (capture_keeps _ _ _ _ _ _ _ H) as (_ & _ & _ & _ & _ & _ & _ & _ & G9).
              simpl in G9. congruence.
           ++ injection H as <-. simpl. exact P0.
        -- intros Hc. rewrite (C0 Hc) in H. simpl in H. rewrite Hc in H.
           destruct (capture_keeps _ _ _ _ _ _ _ H) as (G1 & G2 & G3 & G4 & G5 & _).
           simpl in *. repeat split; congruence.
        -- intros Hb. congruence.
      * destruct (collecting st0) eqn:Hc0.
        -- destruct (capture_keeps _ _ _ _ _ _ _ H) as (G1 & G2 & G3 & G4 & G5 & G6 & G7 & G8 & G9).
           split; [congruence|]. split.
           ++ intros Hc. rewrite (C0 Hc) in *. repeat split; congruence.
           ++ intros _. repeat split; congruence.
        -- injection H as <-. split; [exact P0|]. split.
           ++ intros Hc. congruence.
           ++ intros _. repeat split; congruence.
Qed.

Lemma step_keeps cfg st ev st1 :
  step cfg st ev = Continue st1 ->
  packets_seen st1 =
    packets_seen st + match ev with Recv _ data => if header_ok data then 1 else 0 | RecvTimeout _ => 0 end /\
  (collecting st = true ->
     strings_ranges st1 = strings_ranges st /\ next_assigned st1 = next_assigned st /\
     start st1 = start st /\ max_bytes st1 = max_bytes st /\ collecting st1 = true) /\
  (is_beginning st = false ->
     is_beginning st1 = false /\ start_time st1 = start_time st /\
     empty_frames st1 = empty_frames st).
Proof.
  destruct ev as [now data|now]; simpl.
  2: { intros H. apply on_timeout_continue in H. subst st1.
       split; [lia|]. split; intros; repeat split; assumption. }
  unfold step_recv, header_ok. cbv zeta. intros H.
  destruct (len data <? 10) eqn:H10.
  { injection H as <-. assert (E : (10 <=? len data) = false) by (apply Z.leb_gt, Z.ltb_lt; exact H10).
    rewrite E. simpl. split; [lia|]. split; intros; repeat split; assumption. }
  assert (E : (10 <=? len data) = true) by (apply Z.leb_le; apply Z.ltb_ge in H10; lia).
  rewrite E, andb_true_l.
  destruct (negb (Z.land _ 16 =? 0)); [destruct (14 <=? len data)|].
  2: { injection H as <-. split; [lia|]. split; intros; repeat split; assumption. }
  all: destruct (negb (len _ =? be_uint _)).
  1, 3: injection H as <-; simpl; split; [lia|]; split; intros; repeat split; assumption.
  all: destruct (handle_packet_keeps _ _ _ _ _ _ _ _ H) as (P & C & B); simpl in *;
       split; [lia|]; split; assumption.
Qed.

Lemma run_keeps cfg evs st st1 :
  run cfg st evs = Continue st1 ->
  packets_seen st1 = packets_seen st + headers_passed evs /\
  (collecting st = true ->
     strings_ranges st1 = strings_ranges st /\ next_assigned st1 = next_assigned st /\
     start st1 = start st /\ max_bytes st1 = max_bytes st /\ collecting st1 = true) /\
  (is_beginning st = false ->
     is_beginning st1 = false /\ start_time st1 = start_time st /\
     empty_frames st1 = empty_frames st).
Proof.
  revert st. induction evs as [|ev evs IH]; intros st H; simpl in H.
  - injection H as <-. simpl. split; [lia|]. split; intros; repeat split; assumption.
  - destruct (step cfg st ev) as [st2| |] eqn:Hs; try discriminate.
    destruct (step_keeps _ _ _ _ Hs) as (P & C & B).
    destruct (IH _ H) as (P' & C' & B').
    split.
    + rewrite P', P. destruct ev as [now data|now]; simpl; lia.
    + split.
      * intros Hc. destruct (C Hc) as (C1 & C2 & C3 & C4 & C5).
        destruct (C' C5) as (D1 & D2 & D3 & D4 & D5). repeat split; congruence.
      * intros Hb. destruct (B Hb) as (B1 & B2 & B3).
        destruct (B' B1) as (E1 & E2 & E3). repeat split; congruence.
Qed.

(** ** The output only grows *)

Ltac prefix_nil := first [exists []; rewrite app_nil_r; reflexivity | eexists; reflexivity].

Lemma emit_frame_prefix cfg st now :
  exists suf, outcome_output (emit_frame cfg st now) = output st ++ suf.
Proof.
  unfold emit_frame. cbv zeta.
  repeat match goal with |- context [match ?x with _ => _ end] => destruct x end;
    simpl; prefix_nil.
Qed.

Lemma capture_prefix cfg st now offset length payload :
  exists suf, outcome_output (capture cfg st now offset length payload) = output st ++ suf.
Proof.
  unfold capture.
  destruct (write_payload st offset length payload) as [[st2|]|e out] eqn:Hw; simpl.
  - destruct (write_payload_fields _ _ _ _ _ Hw) as (_ & _ & _ & _ & _ & Ho & _).
    destruct (all_full_check _ _ _) as [[|]|]; simpl; rewrite <- Ho; [|prefix_nil|prefix_nil].
    apply emit_frame_prefix.
  - prefix_nil.
  - rewrite (write_payload_raise_output _ _ _ _ _ _ Hw). prefix_nil.
Qed.

Lemma skip_or_capture_prefix cfg st now offset length payload :
  exists suf, outcome_output (skip_or_capture cfg st now offset length payload) = output st ++ suf.
Proof.
  unfold skip_or_capture.
  destruct (is_beginning st && is_empty_bytearray payload); [simpl; prefix_nil|].
  destruct (is_beginning st).
  - destruct (collecting (begin_capture st now)); [apply (capture_prefix cfg (begin_capture st now))|simpl; prefix_nil].
  - destruct (collecting st); [apply capture_prefix|simpl; prefix_nil].
Qed.

Lemma handle_packet_prefix cfg st now flags1 offset length payload :
  exists suf, outcome_output (handle_packet cfg st now flags1 offset length payload) = output st ++ suf.
Proof.
  unfold handle_packet, discover.
  set (st0 := if negb (collecting st) && negb (Z.land (byte_val flags1) 1 =? 0)
              then learn_range st offset length else st).
  assert (Ho : output st0 = output st) by (unfold st0; destruct (_ && _); reflexivity).
  rewrite <- Ho. clearbody st0.
  destruct (negb (collecting st0) && _).
  - unfold finalize. cbv zeta.
    destruct (py_max _); [|simpl; prefix_nil].
    destruct (to_bytes_le _ _) as [hdr|]; [|simpl; prefix_nil].
    destruct (alloc_buffers _ _ _) as [[bufs fc]|]; [|simpl; prefix_nil].
    cbv beta iota.
    match goal with |- context [skip_or_capture cfg ?S now offset length payload] =>
      destruct (skip_or_capture_prefix cfg S now offset length payload) as [suf Hs] end.
    rewrite Hs. simpl. rewrite <- app_assoc. eexists; reflexivity.
  - apply skip_or_capture_prefix.
Qed.

Lemma step_prefix cfg st ev :
  exists suf, outcome_output (step cfg st ev) = output st ++ suf.
Proof.
  destruct ev as [now data|now]; simpl.
  - unfold step_recv. cbv zeta.
    destruct (len data <? 10); [simpl; prefix_nil|].
    destruct (if negb _ then _ else _); [|simpl; prefix_nil].
    destruct (negb _); [simpl; prefix_nil|].
    exact (handle_packet_prefix cfg (incr_packets_seen st) _ _ _ _ _).
  - rewrite on_timeout_output. prefix_nil.
Qed.

Lemma run_prefix cfg evs st :
  exists suf, outcome_output (run cfg st evs) = output st ++ suf.
Proof.
  revert st. induction evs as [|ev evs IH]; intros st; simpl; [prefix_nil|].
  destruct (step_prefix cfg st ev) as [suf Hs].
  destruct (step cfg st ev) as [st1|out|e out]; simpl in *.
  - destruct (IH st1) as [suf' H']. rewrite H', Hs, <- app_assoc. eexists; reflexivity.
  - rewrite Hs. eexists; reflexivity.
  - rewrite Hs. eexists; reflexivity.
Qed.

Lemma run_output cfg evs st :
  0 < number_of_strings cfg -> reachable cfg st ->
  output_well_formed cfg (outcome_output (run cfg st evs)).
Proof.
  intros Hs. revert st. induction evs as [|ev evs IH]; intros st R; simpl.
  - exact (output_of_state _ _ (reachable_inv _ _ Hs R) (reachable_file_ok _ _ Hs R)).
  - destruct (step_output cfg st ev (reachable_inv _ _ Hs R) (reachable_file_ok _ _ Hs R))
      as [Ho _].
    destruct (step cfg st ev) as [st1| |] eqn:Hst; [|exact Ho|exact Ho].
    apply IH. eapply reach_step; eauto.
Qed.

Lemma py_max_spec l ml :
  py_max l = Some ml -> In ml l /\ Forall (fun x => x <= ml) l.
Proof.
  destruct l as [|x l]; [discriminate|]. simpl. intros H. injection H as <-.
  exact (fold_max_spec l x).
Qed.

Lemma is_empty_bytearray_app p q :
  is_empty_bytearray (p ++ q) = is_empty_bytearray p && is_empty_bytearray q.
Proof.
  apply eq_true_iff_eq. rewrite andb_true_iff, !is_empty_bytearray_spec, Forall_app.
  reflexivity.
Qed.

(** ** Learned offsets *)

Lemma Forall_set {A} (P : Z * A -> Prop) k v m :
  P (k, v) -> Forall P m -> Forall P (set k v m).
Proof.
  intros Hk. induction 1 as [|[k' v'] m Hx Hm IH]; simpl; [constructor; auto|].
  destruct (k =? k'); constructor; auto.
Qed.

Lemma be_uint_nonneg l : 0 <= be_uint l.
Proof.
  unfold be_uint.
  assert (H : forall acc, 0 <= acc ->
                0 <= fold_left (fun acc b => acc * 256 + byte_val b) l acc).
  { induction l as [|b l IH]; intros acc Hacc; simpl; [exact Hacc|].
    apply IH. pose proof (byte_val_range b). lia. }
  apply H. lia.
Qed.

Lemma skip_or_capture_ranges cfg st now offset length payload st' :
  skip_or_capture cfg st now offset length payload = Continue st' ->
  strings_ranges st' = strings_ranges st /\ start st' = start st.
Proof.
  unfold skip_or_capture. destruct (_ && _).
  - intros H. injection H as <-. auto.
  - destruct (collecting _).
    + intros H. destruct (capture_keeps _ _ _ _ _ _ _ H) as (G1 & _ & G3 & _).
      rewrite G1, G3. destruct (is_beginning st); auto.
    + intros H. injection H as <-. destruct (is_beginning st); auto.
Qed.

Lemma discover_ranges cfg st flags1 offset length st1 :
  discover cfg st flags1 offset length = Ok st1 ->
  (strings_ranges st1 = strings_ranges st /\ start st1 = start st) \/
  (strings_ranges st1 = strings_ranges (learn_range st offset length) /\
   start st1 = offset + length).
Proof.
  assert (K : forall st0, finalize st0 = Ok st1 ->
                strings_ranges st1 = strings_ranges st0 /\ start st1 = start st0).
  { intros st0. unfold finalize. cbv zeta. intros H. split_matches H.
    injection H as <-. auto. }
  unfold discover. cbv zeta.
  destruct (negb (collecting st) && _).
  - destruct (_ && _); [intros H; apply K in H; right; exact H|].
    intros H. injection H as <-. right. auto.
  - destruct (_ && _); [intros H; apply K in H; left; exact H|].
    intros H. injection H as <-. left. auto.
Qed.

(** A step changes the learned ranges only by learning the range of a
    decoded push, whose offset and length are unsigned. *)
Lemma step_ranges cfg st ev st' :
  step cfg st ev = Continue st' ->
  (strings_ranges st' = strings_ranges st /\ start st' = start st) \/
  exists offset length, 0 <= offset /\ 0 <= length /\
    strings_ranges st' = strings_ranges (learn_range st offset length) /\
    start st' = offset + length.
Proof.
  destruct ev as [now data|now]; simpl.
  - unfold step_recv. cbv zeta.
    destruct (len data <? 10); [intros H; injection H as <-; left; auto|].
    destruct (if negb _ then _ else _); [|intros H; injection H as <-; left; auto].
    destruct (negb _); [intros H; injection H as <-; left; auto|].
    unfold handle_packet. destruct (discover _ _ _ _ _) as [st1|] eqn:Hd; [|discriminate].
    intros H. apply skip_or_capture_ranges in H as [H1 H2].
    destruct (discover_ranges _ _ _ _ _ _ Hd) as [[G1 G2]|[G1 G2]].
    + left. rewrite H1, H2, G1, G2. auto.
    + right. exists (be_uint (py_slice data 4 8)), (be_uint (py_slice data 8 10)).
      split; [apply be_uint_nonneg|]. split; [apply be_uint_nonneg|].
      rewrite H1, H2, G1, G2. auto.
  - intros H. apply on_timeout_continue in H. subst. left. auto.
Qed.

Lemma reachable_ranges_nonneg cfg st :
  reachable cfg st ->
  0 <= start st /\ Forall (fun r => 0 <= fst (snd r) /\ 0 <= snd (snd r)) (strings_ranges st).
Proof.
  induction 1 as [|st ev st' R [Hs Hf] Hstep].
  - simpl. split; [lia|constructor].
  - destruct (step_ranges _ _ _ _ Hstep) as [[-> ->]|(o & l & Ho & Hl & -> & ->)]; [auto|].
    split; [lia|]. unfold learn_range. simpl. apply Forall_set; [simpl; lia|exact Hf].
Qed.

Lemma chain_app rs1 rs2 a t :
  chain (rs1 ++ rs2) a t -> exists m, chain rs1 a m /\ chain rs2 m t.
Proof.
  revert a. induction rs1 as [|[n [s e]] rs1 IH]; intros a H; simpl in H.
  - exists a. split; [constructor|exact H].
  - inversion H as [|? ? ? ? ? Hch]; subst.
    destruct (IH _ Hch) as (m & H1 & H2). exists m. split; [constructor; exact H1|exact H2].
Qed.

Lemma covers_app rs1 rs2 x : covers (rs1 ++ rs2) x = (covers rs1 x + covers rs2 x)%nat.
Proof. unfold covers. rewrite filter_app, length_app. reflexivity. Qed.

(** A chain from [a] to [b] covers every point of [[a, b)]. *)
Lemma chain_covers rs a b x : chain rs a b -> a <= x < b -> (1 <= covers rs x)%nat.
Proof.
  induction 1 as [a|n a c rs t Hch IH]; intros Hx; [lia|].
  unfold covers in *. simpl.
  destruct (Z.leb_spec a x), (Z.ltb_spec x c); simpl; try lia.
Qed.

(** A chain of ranges with non-negative ends, one of which ends before it
    starts, is no partition: the end [e] of that range is covered both by
    the ranges before it (which lead from [0] to its start) and, when it
    lies below [t], by the ranges after it (which lead from [e] to [t]). *)
Lemma chain_negative_not_partition rs t :
  chain rs 0 t -> Forall (fun r => 0 <= snd (snd r)) rs ->
  Exists (fun r => snd (snd r) < fst (snd r)) rs -> ~ partitions rs 0 t.
Proof.
  intros Hch Hnn Hex Hp.
  apply Exists_exists in Hex as ([n [s e]] & Hin & Hneg). simpl in Hneg.
  rewrite Forall_forall in Hnn.
  assert (He : 0 <= e) by exact (Hnn _ Hin).
  apply in_split in Hin as (pre & post & ->).
  destruct (chain_app _ _ _ _ Hch) as (m & Hpre & Hpost).
  inversion Hpost as [|? ? ? ? ? Hpost']; subst.
  assert (C1 : (1 <= covers pre e)%nat) by (apply (chain_covers _ _ _ _ Hpre); lia).
  assert (C0 : covers ((n, (m, e)) :: post) e = covers post e)
    by (unfold covers; simpl; rewrite Z.ltb_irrefl, andb_false_r; reflexivity).
  specialize (Hp e). rewrite covers_app, C0 in Hp.
  destruct (Z.ltb_spec e t).
  - assert (C2 : (1 <= covers post e)%nat) by (apply (chain_covers _ _ _ _ Hpost'); lia).
    rewrite (proj2 (Z.leb_le 0 e) He) in Hp. simpl in Hp. lia.
  - rewrite (proj2 (Z.leb_le 0 e) He) in Hp. simpl in Hp. lia.
Qed.

(** The range learned from a push ending below the cursor runs
    backwards. *)
Lemma learn_range_negative st offset length :
  offset + length < start st ->
  Exists (fun r => snd (snd r) < fst (snd r)) (strings_ranges (learn_range st offset length)).
Proof.
  intros Hlt. apply Exists_exists.
  exists (next_assigned st, (start st, offset + length)). split; [|simpl; exact Hlt].
  apply lookup_In. unfold learn_range. simpl. apply lookup_set_eq.
Qed.

(** ** C3 (as the code has it): the learned ranges.
    In every reachable session the ranges carry the running numbers
    [1..n] in assignment order, the first starts at 0, each one starts
    where the previous one ends, and the cursor [start] is the last end.
    When every range has a non-negative length (each push ends at or after
    the previous end), the ranges partition [[0, start)]; every session
    that has finalised discovery has exactly [S] such ranges.  A push
    ending below the cursor is learned as a range that ends before it
    starts; from then on the ranges do not partition [[0, start)].  When
    the [S]-th range is learned with such a range among the [S], discovery
    raises: [OverflowError] at the header, with the file opened by ["wb"]
    and left empty, when the longest range [ml] gives [ml // 3] outside
    [[0, 65536)]; otherwise [ValueError] at the buffer allocation, after
    the header was written. *)
Theorem learned_ranges_contiguous cfg :
  0 < number_of_strings cfg ->
  (forall st, reachable cfg st ->
     map fst (strings_ranges st) = zseq 1 (length (strings_ranges st)) /\
     chain (strings_ranges st) 0 (start st)) /\
  (forall rs t, chain rs 0 t -> Forall (fun r => fst (snd r) <= snd (snd r)) rs ->
     partitions rs 0 t) /\
  (forall st, reachable cfg st -> collecting st = true ->
     len (strings_ranges st) = number_of_strings cfg /\
     partitions (strings_ranges st) 0 (start st)) /\
  (forall st offset length, offset + length < start st ->
     Exists (fun r => snd (snd r) < fst (snd r)) (strings_ranges (learn_range st offset length))) /\
  (forall st, reachable cfg st ->
     Exists (fun r => snd (snd r) < fst (snd r)) (strings_ranges st) ->
     ~ partitions (strings_ranges st) 0 (start st)) /\
  (forall st flags1 offset length, reachable cfg st -> collecting st = false ->
     0 <= offset -> 0 <= length ->
     let st1 := if negb (Z.land (byte_val flags1) 1 =? 0)
                then learn_range st offset length else st in
     Exists (fun r => snd (snd r) < fst (snd r)) (strings_ranges st1) ->
     ~ partitions (strings_ranges st1) 0 (start st1) /\
     (len (strings_ranges st1) = number_of_strings cfg ->
      exists ml, py_max (range_lengths (strings_ranges st1)) = Some ml /\
        ((~ (0 <= ml / 3 < 65536) /\
          discover cfg st flags1 offset length = Raise OverflowError [Create []]) \/
         (0 <= ml / 3 < 65536 /\
          discover cfg st flags1 offset length =
            Raise ValueError [Create (le_digits 2 (ml / 3))])))).
Proof.
  intros Hs. split; [|split; [|split; [|split; [|split]]]].
  - intros st R. pose proof (reachable_inv _ _ Hs R) as I.
    split; [exact (inv_keys _ _ I)|exact (inv_chain _ _ I)].
  - intros rs t Hch Hle. exact (proj2 (chain_partitions _ _ _ Hch Hle)).
  - intros st R Hc. pose proof (reachable_inv _ _ Hs R) as I.
    destruct (inv_coll _ _ I Hc) as (HS & Hbuf & _).
    split; [exact HS|].
    apply (chain_partitions _ _ _ (inv_chain _ _ I)).
    exact (keyed_buf_ok_nonneg _ _ Hbuf).
  - exact learn_range_negative.
  - intros st R Hex.
    apply (chain_negative_not_partition _ _ (inv_chain _ _ (reachable_inv _ _ Hs R)));
      [|exact Hex].
    eapply Forall_impl; [|exact (proj2 (reachable_ranges_nonneg _ _ R))].
    intros r [_ H]. exact H.
  - intros st flags1 offset length R Hc Ho Hl st1 Hex.
    pose proof (reachable_inv _ _ Hs R) as I.
    destruct (reachable_ranges_nonneg _ _ R) as [H0 Hnn].
    assert (D : disc_shape cfg st1).
    { unfold st1. destruct (negb _); [apply disc_shape_learn|apply disc_shape_of_inv]; auto. }
    destruct D as (_ & _ & Hch & Hc1 & _ & _ & Hout1 & _).
    assert (Hnn1 : Forall (fun r => 0 <= snd (snd r)) (strings_ranges st1)).
    { eapply Forall_impl; [|unfold st1; destruct (negb _);
        [apply Forall_set; [|exact Hnn]|exact Hnn]]; [intros r [_ H]; exact H|simpl; lia]. }
    split; [exact (chain_negative_not_partition _ _ Hch Hnn1 Hex)|].
    intros HS. unfold discover. rewrite Hc. simpl negb. rewrite andb_true_l. fold st1.
    rewrite Hc1. simpl negb. rewrite andb_true_l.
    rewrite (proj2 (Z.leb_le _ _) (Z.eq_le_incl _ _ (eq_sym HS))).
    unfold finalize.
    destruct (py_max _) as [ml|] eqn:Hm;
      [|exfalso; destruct (strings_ranges st1); [unfold len in HS; simpl in HS; lia|discriminate]].
    exists ml. split; [reflexivity|]. cbv zeta. unfold to_bytes_le, CHANNELS_PER_PIXEL.
    change (256 ^ Z.of_nat 2) with 65536. rewrite Hout1.
    destruct (Z.leb_spec 0 (ml / 3)), (Z.ltb_spec (ml / 3) 65536); simpl andb;
      try (left; split; [lia|reflexivity]).
    right. split; [lia|].
    replace (alloc_buffers (strings_ranges st1) (buffers st1) (filled_count st1)) with
      (@None (list (Z * list byte) * list (Z * Z))); [reflexivity|].
    symmetry. apply alloc_buffers_None.
    eapply Exists_impl; [|exact Hex]. intros r Hr. cbv beta in *. lia.
Qed.

Lemma learned_ranges_contiguous_witness :
  0 < number_of_strings cfg2 /\
  partitions (strings_ranges (session_after cfg2 scenario_b)) 0 45.
Proof.
  split; [reflexivity|].
  destruct (learned_ranges_contiguous cfg2 eq_refl) as (_ & _ & H & _).
  assert (Hst : start (session_after cfg2 scenario_b) = 45) by (vm_compute; reflexivity).
  rewrite <- Hst. apply H; [exact scenario_b_reachable|vm_compute; reflexivity].
Defined.

(** ** Properties of the whole program *)

(** The 2-byte little-endian encoding [v.to_bytes(n, "little")] (lines
    151 and 215) succeeds exactly for [0 <= v < 256^n], and then gives [n]
    bytes that decode back to [v]. *)
Theorem to_bytes_le_round_trip n v :
  ((exists bs, to_bytes_le n v = Some bs) <-> 0 <= v < 256 ^ Z.of_nat n) /\
  (forall bs, to_bytes_le n v = Some bs -> length bs = n /\ le_value bs = v).
Proof.
  split.
  - split.
    + intros [bs H]. exact (proj2 (proj2 (to_bytes_le_Some _ _ _ H))).
    + intros Hv. exists (le_digits n v). unfold to_bytes_le.
      destruct Hv as [H0 H1]. apply Z.leb_le in H0. apply Z.ltb_lt in H1.
      rewrite H0, H1. reflexivity.
  - intros bs H. destruct (to_bytes_le_Some _ _ _ H) as (H1 & H2 & _). split; assumption.
Qed.

(** [is_empty_bytearray] (lines 16-20) holds exactly for the payloads whose
    bytes are all zero, and it holds for a concatenation exactly when it
    holds for both parts. *)
Theorem is_empty_bytearray_zero_bytes p q :
  (is_empty_bytearray p = true <-> Forall (fun b => b = x00) p) /\
  is_empty_bytearray (p ++ q) = is_empty_bytearray p && is_empty_bytearray q.
Proof.
  split; [apply is_empty_bytearray_spec|apply is_empty_bytearray_app].
Qed.

(** In every reachable capturing session the output file is the 2-byte
    little-endian header [ml // 3], for the maximal learned range length
    [ml], followed by exactly [frames_written] records of
    [4 + S * max_bytes] bytes each, with [max_bytes = (ml // 3) * 3]. *)
Theorem collecting_file_layout cfg st :
  0 < number_of_strings cfg -> reachable cfg st -> collecting st = true ->
  exists ml hdr recs,
    py_max (range_lengths (strings_ranges st)) = Some ml /\
    max_bytes st = Some (ml / CHANNELS_PER_PIXEL * CHANNELS_PER_PIXEL) /\
    output st = Create hdr :: map Append recs /\
    len hdr = 2 /\ le_value hdr = ml / CHANNELS_PER_PIXEL /\
    Forall (fun r => len r = 4 + number_of_strings cfg * (ml / CHANNELS_PER_PIXEL * CHANNELS_PER_PIXEL))
      recs /\
    frames_written st = len recs.
Proof.
  intros Hs R Hc. exact (reachable_file_ok _ _ Hs R Hc).
Qed.

Lemma collecting_file_layout_witness :
  0 < number_of_strings cfg1 /\ collecting (session_after cfg1 overlap_run) = true /\
  exists ml hdr recs,
    py_max (range_lengths (strings_ranges (session_after cfg1 overlap_run))) = Some ml /\
    max_bytes (session_after cfg1 overlap_run) = Some (ml / CHANNELS_PER_PIXEL * CHANNELS_PER_PIXEL) /\
    output (session_after cfg1 overlap_run) = Create hdr :: map Append recs /\
    len hdr = 2 /\ le_value hdr = ml / CHANNELS_PER_PIXEL /\
    Forall (fun r => len r = 4 + number_of_strings cfg1 * (ml / CHANNELS_PER_PIXEL * CHANNELS_PER_PIXEL))
      recs /\
    frames_written (session_after cfg1 overlap_run) = len recs.
Proof.
  assert (Hs : 0 < number_of_strings cfg1) by reflexivity.
  assert (Hc : collecting (session_after cfg1 overlap_run) = true) by (vm_compute; reflexivity).
  split; [exact Hs|]. split; [exact Hc|].
  exact (collecting_file_layout cfg1 _ Hs overlap_run_reachable Hc).
Defined.

(** Whatever the datagrams and timeouts, and however the run ends (still
    listening, a normal exit or an exception), the output file is either
    not yet created, or empty (opened with ["wb"] when the header write
    raised [OverflowError]), or a well-formed file: one header, then whole
    frame records of [4 + S * max_bytes] bytes. *)
Theorem run_output_layout cfg evs :
  0 < number_of_strings cfg ->
  outcome_output (run cfg init_session evs) = [] \/
  outcome_output (run cfg init_session evs) = [Create []] \/
  exists ml, file_layout cfg ml (outcome_output (run cfg init_session evs)).
Proof.
  intros Hs. exact (run_output cfg evs init_session Hs (reach_init cfg)).
Qed.

Lemma run_output_layout_witness :
  0 < number_of_strings cfg2 /\
  (outcome_output (run cfg2 init_session scenario_b) = [] \/
   outcome_output (run cfg2 init_session scenario_b) = [Create []] \/
   exists ml, file_layout cfg2 ml (outcome_output (run cfg2 init_session scenario_b))).
Proof.
  assert (Hs : 0 < number_of_strings cfg2) by reflexivity.
  split; [exact Hs|]. exact (run_output_layout cfg2 scenario_b Hs).
Defined.

(** Once the output file exists, the loop only appends to it: from a
    reachable session that has written to the file, the output of any run,
    however it ends, is the session's output followed by frame appends
    ([open(..., "ab")]) only, with no further [open(..., "wb")] that
    would empty the file. *)
Theorem file_append_only cfg st evs :
  0 < number_of_strings cfg -> reachable cfg st -> output st <> [] ->
  exists suf, outcome_output (run cfg st evs) = output st ++ suf /\ Forall is_append suf.
Proof.
  intros Hs R Hne.
  destruct (run_prefix cfg evs st) as [suf Hsuf]. exists suf. split; [exact Hsuf|].
  destruct (run_output cfg evs st Hs R) as [H0|[H1|[ml (hdr & recs & Hf & _)]]];
    rewrite Hsuf in *.
  - destruct (output st); [congruence|discriminate].
  - destruct (output st) as [|o l]; [congruence|]. injection H1 as _ H1.
    apply app_eq_nil in H1 as [_ ->]. constructor.
  - destruct (output st) as [|o l]; [congruence|]. injection Hf as _ Hf.
    assert (Ha : Forall is_append (map Append recs))
      by (apply Forall_forall; intros x Hx; apply in_map_iff in Hx as (r & <- & _); exact I).
    rewrite <- Hf in Ha. apply Forall_app in Ha. exact (proj2 Ha).
Qed.

Lemma file_append_only_witness :
  0 < number_of_strings cfg2 /\ reachable cfg2 (session_after cfg2 scenario_b) /\
  output (session_after cfg2 scenario_b) <> [] /\
  exists suf, outcome_output (run cfg2 (session_after cfg2 scenario_b) [Recv 2 (ddp x40 0 15 (px 15))]) =
    output (session_after cfg2 scenario_b) ++ suf /\ Forall is_append suf.
Proof.
  assert (Hs : 0 < number_of_strings cfg2) by reflexivity.
  assert (Hne : output (session_after cfg2 scenario_b) <> []) by (vm_compute; discriminate).
  split; [exact Hs|]. split; [exact scenario_b_reachable|]. split; [exact Hne|].
  exact (file_append_only cfg2 _ _ Hs scenario_b_reachable Hne).
Defined.

(** After discovery, the learned ranges, the running string number, the
    discovery cursor [start] and [max_bytes] never change again, and
    [collecting] stays [True], over any run that keeps listening. *)
Theorem capture_layout_frozen cfg st evs st1 :
  collecting st = true -> run cfg st evs = Continue st1 ->
  strings_ranges st1 = strings_ranges st /\ next_assigned st1 = next_assigned st /\
  start st1 = start st /\ max_bytes st1 = max_bytes st /\ collecting st1 = true.
Proof.
  intros Hc H. exact (proj1 (proj2 (run_keeps _ _ _ _ H)) Hc).
Qed.

Lemma capture_layout_frozen_witness :
  collecting (session_after cfg2 scenario_b) = true /\
  run cfg2 (session_after cfg2 scenario_b) [Recv 2 (ddp x40 0 15 (px 15))] =
    Continue (session_after cfg2 (scenario_b ++ [Recv 2 (ddp x40 0 15 (px 15))])) /\
  let st := session_after cfg2 scenario_b in
  let st1 := session_after cfg2 (scenario_b ++ [Recv 2 (ddp x40 0 15 (px 15))]) in
  strings_ranges st1 = strings_ranges st /\ next_assigned st1 = next_assigned st /\
  start st1 = start st /\ max_bytes st1 = max_bytes st /\ collecting st1 = true.
Proof.
  assert (Hc : collecting (session_after cfg2 scenario_b) = true) by (vm_compute; reflexivity).
  assert (Hr : run cfg2 (session_after cfg2 scenario_b) [Recv 2 (ddp x40 0 15 (px 15))] =
    Continue (session_after cfg2 (scenario_b ++ [Recv 2 (ddp x40 0 15 (px 15))])))
    by (vm_compute; reflexivity).
  split; [exact Hc|]. split; [exact Hr|].
  exact (capture_layout_frozen cfg2 _ _ _ Hc Hr).
Defined.

(** Once the first non-empty payload has started the capture, the
    capture start time and the count of skipped empty packets never change
    again, and [is_beginning] stays [False], over any run that keeps
    listening. *)
Theorem capture_origin_frozen cfg st evs st1 :
  is_beginning st = false -> run cfg st evs = Continue st1 ->
  is_beginning st1 = false /\ start_time st1 = start_time st /\
  empty_frames st1 = empty_frames st.
Proof.
  intros Hb H. exact (proj2 (proj2 (run_keeps _ _ _ _ H)) Hb).
Qed.

Lemma capture_origin_frozen_witness :
  is_beginning half_frame = false /\
  run cfg1 half_frame [Recv 9 (ddp x40 0 3 (px 3))] =
    Continue (session_after cfg1 [Recv 0 (ddp x41 3 3 (px 3)); Recv 9 (ddp x40 0 3 (px 3))]) /\
  let st1 := session_after cfg1 [Recv 0 (ddp x41 3 3 (px 3)); Recv 9 (ddp x40 0 3 (px 3))] in
  is_beginning st1 = false /\ start_time st1 = start_time half_frame /\
  empty_frames st1 = empty_frames half_frame.
Proof.
  assert (Hb : is_beginning half_frame = false) by (vm_compute; reflexivity).
  assert (Hr : run cfg1 half_frame [Recv 9 (ddp x40 0 3 (px 3))] =
    Continue (session_after cfg1 [Recv 0 (ddp x41 3 3 (px 3)); Recv 9 (ddp x40 0 3 (px 3))]))
    by (vm_compute; reflexivity).
  split; [exact Hb|]. split; [exact Hr|].
  exact (capture_origin_frozen cfg1 _ _ _ Hb Hr).
Defined.

(** [packets_seen] counts exactly the datagrams that pass the header
    checks (at least 10 bytes, and at least 14 when the timecode bit is
    set), including those later dropped for a short payload, over any run
    that keeps listening. *)
Theorem packets_seen_counts cfg st evs st1 :
  run cfg st evs = Continue st1 ->
  packets_seen st1 = packets_seen st + headers_passed evs.
Proof.
  intros H. exact (proj1 (run_keeps _ _ _ _ H)).
Qed.

Lemma packets_seen_counts_witness :
  run cfg2 init_session ([Recv 0 [x00; x01]; RecvTimeout 1] ++ scenario_b) =
    Continue (session_after cfg2 ([Recv 0 [x00; x01]; RecvTimeout 1] ++ scenario_b)) /\
  packets_seen (session_after cfg2 ([Recv 0 [x00; x01]; RecvTimeout 1] ++ scenario_b)) =
    packets_seen init_session + headers_passed ([Recv 0 [x00; x01]; RecvTimeout 1] ++ scenario_b).
Proof.
  assert (Hr : run cfg2 init_session ([Recv 0 [x00; x01]; RecvTimeout 1] ++ scenario_b) =
    Continue (session_after cfg2 ([Recv 0 [x00; x01]; RecvTimeout 1] ++ scenario_b)))
    by (vm_compute; reflexivity).
  split; [exact Hr|]. exact (packets_seen_counts cfg2 _ _ _ Hr).
Defined.

(** Offsets and lengths are read as unsigned big-endian integers
    (lines 87-88), so in a reachable session [start] and both ends of
    every learned range are non-negative (the end can still lie before the
    start). *)
Theorem learned_offsets_nonneg cfg st :
  reachable cfg st ->
  0 <= start st /\
  Forall (fun r => 0 <= fst (snd r) /\ 0 <= snd (snd r)) (strings_ranges st).
Proof.
  intros R. exact (reachable_ranges_nonneg cfg st R).
Qed.

Lemma learned_offsets_nonneg_witness :
  reachable cfg2 (session_after cfg2 scenario_b) /\
  strings_ranges (session_after cfg2 scenario_b) = [(1, (0, 15)); (2, (15, 45))] /\
  0 <= start (session_after cfg2 scenario_b) /\
  Forall (fun r => 0 <= fst (snd r) /\ 0 <= snd (snd r))
    (strings_ranges (session_after cfg2 scenario_b)).
Proof.
  split; [exact scenario_b_reachable|]. split; [vm_compute; reflexivity|].
  exact (learned_offsets_nonneg cfg2 _ scenario_b_reachable).
Defined.

(** In a reachable capturing session, [max_bytes] is a multiple of 3
    between [ml - 2] and [ml] for the maximal range length [ml]: every
    range is at most 2 bytes longer than [max_bytes], so a frame part drops
    at most 2 trailing bytes, and some range reaches [max_bytes]. *)
Theorem max_bytes_bounds cfg st :
  0 < number_of_strings cfg -> reachable cfg st -> collecting st = true ->
  exists mb, max_bytes st = Some mb /\ 0 <= mb /\ mb mod CHANNELS_PER_PIXEL = 0 /\
    (forall n s e, In (n, (s, e)) (strings_ranges st) -> e - s <= mb + 2) /\
    (exists n s e, In (n, (s, e)) (strings_ranges st) /\ mb <= e - s).
Proof.
  intros Hs R Hc.
  destruct (reachable_file_ok _ _ Hs R Hc) as (ml & _ & _ & Hm & Hmb & _).
  destruct (inv_coll _ _ (reachable_inv _ _ Hs R) Hc) as (_ & _ & _ & [mb [Hmb' Hmb0]] & _).
  rewrite Hmb in Hmb'. injection Hmb' as <-.
  destruct (py_max_spec _ _ Hm) as [Hin Hall].
  unfold CHANNELS_PER_PIXEL in *.
  exists (ml / 3 * 3). split; [exact Hmb|]. split; [exact Hmb0|]. split; [apply Z.mod_mul; lia|].
  pose proof (Z.mul_div_le ml 3 ltac:(lia)). pose proof (Z.mod_pos_bound ml 3 ltac:(lia)).
  pose proof (Z.div_mod ml 3 ltac:(lia)).
  split.
  - intros n s e Hr. rewrite Forall_forall in Hall.
    assert (Hl : In (e - s) (range_lengths (strings_ranges st)))
      by (unfold range_lengths; apply (in_map (fun '(_, (s, e)) => e - s)) in Hr; exact Hr).
    specialize (Hall _ Hl). lia.
  - unfold range_lengths in Hin. apply in_map_iff in Hin as ([n [s e]] & Heq & Hr).
    exists n, s, e. split; [exact Hr|]. lia.
Qed.

Lemma max_bytes_bounds_witness :
  0 < number_of_strings cfg2 /\ collecting (session_after cfg2 scenario_b) = true /\
  exists mb, max_bytes (session_after cfg2 scenario_b) = Some mb /\ 0 <= mb /\
    mb mod CHANNELS_PER_PIXEL = 0 /\
    (forall n s e, In (n, (s, e)) (strings_ranges (session_after cfg2 scenario_b)) -> e - s <= mb + 2) /\
    (exists n s e, In (n, (s, e)) (strings_ranges (session_after cfg2 scenario_b)) /\ mb <= e - s).
Proof.
  assert (Hs : 0 < number_of_strings cfg2) by reflexivity.
  assert (Hc : collecting (session_after cfg2 scenario_b) = true) by (vm_compute; reflexivity).
  split; [exact Hs|]. split; [exact Hc|].
  exact (max_bytes_bounds cfg2 _ Hs scenario_b_reachable Hc).
Defined.

(** Running string numbers (lines 131-135): in every reachable session
    the learned ranges are numbered [1, 2, ..., n] in assignment order, and
    the next number to assign is [n + 1]. *)
Theorem range_numbering cfg st :
  0 < number_of_strings cfg -> reachable cfg st ->
  map fst (strings_ranges st) = zseq 1 (length (strings_ranges st)) /\
  next_assigned st = 1 + len (strings_ranges st).
Proof.
  intros Hs R. pose proof (reachable_inv _ _ Hs R) as I.
  exact (conj (inv_keys _ _ I) (inv_next _ _ I)).
Qed.

Lemma range_numbering_witness :
  0 < number_of_strings cfg2 /\
  map fst (strings_ranges (session_after cfg2 scenario_b)) =
    zseq 1 (length (strings_ranges (session_after cfg2 scenario_b))) /\
  next_assigned (session_after cfg2 scenario_b) = 1 + len (strings_ranges (session_after cfg2 scenario_b)).
Proof.
  assert (Hs : 0 < number_of_strings cfg2) by reflexivity.
  split; [exact Hs|]. exact (range_numbering cfg2 _ Hs scenario_b_reachable).
Defined.
